(** * RIS control: a shallow embedding of [environment.py] and of the
    beam-sweep script [cb_bsw_flexible_vs_minimum_snr.py].

    Numerical values ([float64], [complex128]) are idealised as real numbers
    and pairs of real numbers, so rounding, overflow, [inf] and [nan] are
    outside the model (division is the total division of [R]).  Arrays are
    lists: a [K]-by-3 array is a list of triples, a matrix is a list of rows.
    Python exceptions are values of an error type, and the attributes the
    code reads from the base class [Cluster] are fields of a record. *)

From Stdlib Require Import String ZArith QArith Reals Lra Lia Arith Bool List.
Import ListNotations.
Local Open Scope R_scope.

(** ** Complex numbers, as numpy's [complex128] idealised over [R] *)

Module Cplx.

Definition C : Type := (R * R)%type.

Definition Re (z : C) : R := fst z.
Definition Im (z : C) : R := snd z.

Definition C0 : C := (0, 0).
Definition C1 : C := (1, 0).

Definition Cadd (a b : C) : C := (Re a + Re b, Im a + Im b).
Definition Cmul (a b : C) : C :=
  (Re a * Re b - Im a * Im b, Re a * Im b + Im a * Re b).
Definition Cconj (a : C) : C := (Re a, - Im a).

(** [z / r] and [r * z] for a real [r]. *)
Definition Cdivr (a : C) (r : R) : C := (Re a / r, Im a / r).
Definition Cscale (r : R) (a : C) : C := (r * Re a, r * Im a).

(** [np.abs] on a complex number. *)
Definition Cabs (a : C) : R := sqrt (Re a * Re a + Im a * Im a).

(** [np.exp(-1j * t)] for a real [t]. *)
Definition Cexp_mj (t : R) : C := (cos t, - sin t).

(** [np.power(z, m)] for a natural exponent. *)
Fixpoint Cpow (z : C) (m : nat) : C :=
  match m with
  | O => C1
  | S m' => Cmul z (Cpow z m')
  end.

(** [np.sum] of a sequence of complex numbers. *)
Definition Csum (l : list C) : C := fold_right Cadd C0 l.

End Cplx.
Import Cplx.

(** ** Points of space *)

Definition vec3 : Type := (R * R * R)%type.

Definition dot (a b : vec3) : R :=
  let '(ax, ay, az) := a in
  let '(bx, by_, bz) := b in
  ax * bx + ay * by_ + az * bz.

(** [np.linalg.norm(x, axis=-1)] on one row. *)
Definition norm (a : vec3) : R :=
  let '(ax, ay, az) := a in sqrt (ax * ax + ay * ay + az * az).

(** Division of a row by a scalar, [x / d]. *)
Definition vdiv (a : vec3) (d : R) : vec3 :=
  let '(ax, ay, az) := a in (ax / d, ay / d, az / d).

(** [np.log10]. *)
Definition log10 (x : R) : R := ln x / ln 10.

(** [np.log2]. *)
Definition log2 (x : R) : R := ln x / ln 2.

(** ** The environment object

    The attributes come from the base class [Cluster] and from the objects it
    places ([self.bs], [self.ue], [self.ris]); they are the fields of a
    record. *)

Record RisProtocolEnv : Type := mkEnv {
  wavelength : R;
  z_size : R;
  pl_exponent : R;
  dist_br : R;
  ref_dist : R;
  bs_gain : R;
  ue_gain : R;
  bs_cartver : vec3;
  freqs : list R;                (* [self.freqs], one entry per resource block *)
  ris_num_els_h : nat;
  ris_dist_els_h : R;
  ris_el_pos : list vec3;        (* columns of [self.ris.el_pos] *)
  ris_actual_conf : list C       (* [self.ris.actual_conf] *)
}.

(** [self.ris.num_els]: the number of elements of the surface. *)
Definition ris_num_els (e : RisProtocolEnv) : nat := length (ris_el_pos e).

Definition speed_of_light : R := 299792458.

(** *** [pointing] *)

Definition pointing (e : RisProtocolEnv) (azimuth_angle elevation_angle : R)
    (k_max : nat) : list vec3 :=
  let k := map INR (seq 0 k_max) in
  let x_pointing :=
    map (fun k => k * 2 * wavelength e / sqrt (INR (ris_num_els_h e))
                    / ris_dist_els_h e
                  + cos azimuth_angle * sin elevation_angle) k in
  let y_pointing :=
    map (fun k => k * 2 * wavelength e / sqrt (INR (ris_num_els_h e))
                    / ris_dist_els_h e
                  + sin azimuth_angle * sin elevation_angle) k in
  let z_pointing :=
    map (fun xy => sqrt (1 - fst xy ^ 2 - snd xy ^ 2))
        (combine x_pointing y_pointing) in
  map (fun xyz : R * R * R =>
         let '(x, y, z) := xyz in
         (z_size e / z * x, z_size e / z * y, z_size e / z * z))
      (combine (combine x_pointing y_pointing) z_pointing).

(** *** [pos2beta] *)

(** The body of [pos2beta] on one row of [x]; [pl] is updated in place three
    times before the conversion to linear scale. *)
Definition pos2beta_row (e : RisProtocolEnv) (p : vec3) : R :=
  let pl := 10 * pl_exponent e * log10 (dist_br e * norm p) in
  let pl := pl + - (bs_gain e + ue_gain e) in
  let pl := pl + - 40 * log10 (wavelength e / 4 / PI / ref_dist e) in
  let pl := pl + - 20 * pl_exponent e * log10 (ref_dist e) in
  Rpower 10 (- pl / 10).

Definition pos2beta (e : RisProtocolEnv) (x : list vec3) : list R :=
  map (pos2beta_row e) x.

(** The path loss in dB as the specification writes it. *)
Definition pathloss_dB_spec (e : RisProtocolEnv) (p : vec3) : R :=
  10 * pl_exponent e * log10 (dist_br e * norm p)
  - (bs_gain e + ue_gain e)
  - 40 * log10 (wavelength e / (4 * PI * ref_dist e))
  - 20 * pl_exponent e * log10 (ref_dist e).

(** ** Python exceptions *)

Inductive py_error : Type :=
| UnboundLocalError
| ValueError
| IndexError.

Inductive result (A : Type) : Type :=
| Ok (a : A)
| Raise (err : py_error).
Arguments Ok {A} a.
Arguments Raise {A} err.

Definition bind {A B : Type} (m : result A) (k : A -> result B) : result B :=
  match m with
  | Ok a => k a
  | Raise err => Raise err
  end.

Notation "x <- m ;; k" := (bind m (fun x => k))
  (at level 61, m at next level, right associativity).

(** [for i in np.arange(count): st = body(i, st)], stopping at the first
    exception. *)
Fixpoint for_range {S : Type} (start count : nat)
    (body : nat -> S -> result S) (st : S) : result S :=
  match count with
  | O => Ok st
  | Datatypes.S count' =>
      st' <- body start st ;; for_range (Datatypes.S start) count' body st'
  end.

(** ** Arrays *)

Definition array2 : Type := list (list R).
Definition array3 : Type := list (list (list R)).

(** [l[a:b]] and [l[a:]]. *)
Definition slice {A : Type} (a b : nat) (l : list A) : list A :=
  firstn (b - a) (skipn a l).
Definition slice_from {A : Type} (a : nat) (l : list A) : list A := skipn a l.

Fixpoint zip_with {A B D : Type} (f : A -> B -> D) (l : list A) (l' : list B)
    : list D :=
  match l, l' with
  | a :: t, b :: t' => f a b :: zip_with f t t'
  | _, _ => []
  end.

(** Assignment of a two-dimensional value to a slice of [width] entries of a
    one-dimensional array, from index [a]: numpy accepts the value when its
    leading axis has length one and its row fills the slice (or holds one
    entry, which is repeated), and raises [ValueError] otherwise. *)
Definition assign_at (arr : list R) (a width : nat) (v : array2)
    : result (list R) :=
  match v with
  | [row] =>
      if (length row =? width)%nat then
        Ok (firstn a arr ++ row ++ skipn (a + width) arr)
      else if (length row =? 1)%nat then
        Ok (firstn a arr ++ repeat (hd 0 row) width ++ skipn (a + width) arr)
      else Raise ValueError
  | _ => Raise ValueError
  end.

(** [arr[a:b] = v]. *)
Definition set_slice (arr : list R) (a b : nat) (v : array2) : result (list R) :=
  assign_at arr a (length (slice a b arr)) v.

(** [arr[a:] = v]. *)
Definition set_slice_from (arr : list R) (a : nat) (v : array2)
    : result (list R) :=
  assign_at arr a (length (slice_from a arr)) v.

(** *** [compute_afgain] *)

(** [self.RBs]: the number of resource blocks, one frequency of [self.freqs]
    each. *)
Definition RBs (e : RisProtocolEnv) : nat := length (freqs e).

(** [freqs[np.newaxis].T * a] for [a] of shape (num_els, RBs, m). *)
Definition freqs_times (fs : list R) (a : array3) : array3 :=
  map (fun plane =>
         map (fun fr : R * list R => map (Rmult (fst fr)) (snd fr))
             (combine fs plane)) a.

(** [freqs[np.newaxis].T * rows[np.newaxis].reshape((num_els, 1, m))] for
    [rows] of shape (num_els, m): the middle axis is broadcast over the
    frequencies. *)
Definition freqs_times_rows (fs : list R) (rows : array2) : array3 :=
  map (fun row => map (fun f => map (Rmult f) row) fs) rows.

(** [freqs * np.tile((dist_br - bs.pos.cartver @ ris.el_pos)[np.newaxis].T,
    (1, RBs, m))], of shape (num_els, RBs, m). *)
Definition phase_shift_br_of (e : RisProtocolEnv) (m : nat) : array3 :=
  freqs_times (freqs e)
    (map (fun p => repeat (repeat (dist_br e - dot (bs_cartver e) p) m) (RBs e))
         (ris_el_pos e)).

(** [freqs * (dists - (versors @ ris.el_pos).T)[np.newaxis].reshape(...)], of
    shape (num_els, RBs, m) for [m] points. *)
Definition phase_shift_ru_of (e : RisProtocolEnv) (dists : list R)
    (versors : list vec3) : array3 :=
  freqs_times_rows (freqs e)
    (map (fun p => map (fun dv : R * vec3 => fst dv - dot (snd dv) p)
                       (combine dists versors))
         (ris_el_pos e)).

Definition add3 (a b : array3) : array3 :=
  zip_with (zip_with (zip_with Rplus)) a b.

(** [np.sum(a, axis=0)] for a complex [a] of shape (num_els, rows, cols). *)
Definition sum_axis0 (rows cols : nat) (a : list (list (list C)))
    : list (list C) :=
  fold_right (zip_with (zip_with Cadd)) (repeat (repeat C0 cols) rows) a.

(** [np.abs(np.sum(actual_conf[np.newaxis, np.newaxis].T
      * np.exp(- 1j * 2 * np.pi / speed_of_light * (ru + br)), axis=0)
      / num_els) ** 2], of shape (RBs, m). *)
Definition af_block (e : RisProtocolEnv) (m : nat) (ru br : array3) : array2 :=
  let weighted :=
    map (fun wp : C * list (list R) =>
           map (map (fun t =>
                       Cmul (fst wp) (Cexp_mj (2 * PI / speed_of_light * t))))
               (snd wp))
        (combine (ris_actual_conf e) (add3 ru br)) in
  map (map (fun z => Cabs (Cdivr z (INR (ris_num_els e))) ^ 2))
      (sum_axis0 (RBs e) m weighted).

(** The local variables of [compute_afgain] that its loop and its last
    statements read and write; [phase_shift_ru] is unbound until a batch is
    processed. *)
Record afgain_locals : Type := mkLocals {
  af_gain : list R;
  phase_shift_ru : option array3;
  phase_shift_br : array3
}.

(** One iteration of the loop over full batches of [n] points. *)
Definition afgain_batch (e : RisProtocolEnv) (n : nat) (pos_dist : list R)
    (pos_versor : list vec3) (i : nat) (st : afgain_locals)
    : result afgain_locals :=
  let ru := phase_shift_ru_of e (slice (i * n) ((i + 1) * n) pos_dist)
                              (slice (i * n) ((i + 1) * n) pos_versor) in
  g <- set_slice (af_gain st) (i * n) ((i + 1) * n)
         (af_block e n ru (phase_shift_br st)) ;;
  Ok (mkLocals g (Some ru) (phase_shift_br st)).

(** [compute_afgain] with the batch size [n] as a parameter. *)
Definition compute_afgain_batched (n : nat) (e : RisProtocolEnv) (x : list vec3)
    : result (list R) :=
  let N := length x in
  let pos_dist := map norm x in
  let pos_versor := map (fun pd : vec3 * R => vdiv (fst pd) (snd pd))
                        (combine x pos_dist) in
  let iter := (N / n)%nat in
  st <- for_range 0 iter (afgain_batch e n pos_dist pos_versor)
          (mkLocals (repeat 0 N) None (phase_shift_br_of e n)) ;;
  let n2 := (N - iter * n)%nat in
  st <- (if (0 <? n2)%nat then
           let ru := phase_shift_ru_of e (slice_from (iter * n) pos_dist)
                                       (slice_from (iter * n) pos_versor) in
           let br := phase_shift_br_of e n2 in
           g <- set_slice_from (af_gain st) (iter * n) (af_block e n2 ru br) ;;
           Ok (mkLocals g (Some ru) br)
         else Ok st) ;;
  (* del phase_shift_ru, phase_shift_br, pos_versor, pos_dist *)
  match phase_shift_ru st with
  | None => Raise UnboundLocalError
  | Some _ => Ok (af_gain st)
  end.

(** [n = int(1e6)]. *)
Definition batch_size : nat := 10 ^ 6.

Definition compute_afgain (e : RisProtocolEnv) (x : list vec3)
    : result (list R) :=
  compute_afgain_batched batch_size e x.

(** The same computation on the full point set at once, as the specification
    describes it: one block over all the points, stored in the whole of
    [af_gain]. *)
Definition compute_afgain_single_batch (e : RisProtocolEnv) (x : list vec3)
    : result (list R) :=
  let N := length x in
  let pos_dist := map norm x in
  let pos_versor := map (fun pd : vec3 * R => vdiv (fst pd) (snd pd))
                        (combine x pos_dist) in
  set_slice_from (repeat 0 N) 0
    (af_block e N (phase_shift_ru_of e pos_dist pos_versor)
                  (phase_shift_br_of e N)).

(** One entry of a block in closed form: the gain at frequency [f] of the
    point at distance [d] in direction [v]. *)
Definition af_gain_point (e : RisProtocolEnv) (f : R) (dv : R * vec3) : R :=
  Cabs (Cdivr
          (Csum (map (fun wp : C * vec3 =>
                        Cmul (fst wp)
                          (Cexp_mj (2 * PI / speed_of_light
                                    * (f * (fst dv - dot (snd dv) (snd wp))
                                       + f * (dist_br e
                                              - dot (bs_cartver e) (snd wp))))))
                     (combine (ris_actual_conf e) (ris_el_pos e))))
          (INR (ris_num_els e))) ^ 2.

(** The block of gains of the points [pts], one row per frequency. *)
Definition gains_of (e : RisProtocolEnv) (pts : list (R * vec3)) : array2 :=
  map (fun f => map (af_gain_point e f) pts) (freqs e).

(** The points of [x] as [compute_afgain] reads them: distance from the origin
    ([pos_dist]) and direction ([pos_versor]). *)
Definition polar (x : list vec3) : list (R * vec3) :=
  combine (map norm x)
          (map (fun pd : vec3 * R => vdiv (fst pd) (snd pd))
               (combine x (map norm x))).

(** *** [ecdf] *)

(** The element type of a sample array: a type with a decidable total order
    ([<=] on numbers). *)
Class Ordered (A : Type) : Type := {
  leb : A -> A -> bool;
  leb_total : forall a b, leb a b = true \/ leb b a = true;
  leb_trans : forall a b c, leb a b = true -> leb b c = true -> leb a c = true;
  leb_antisym : forall a b, leb a b = true -> leb b a = true -> a = b
}.

#[export, refine] Instance Ordered_Z : Ordered Z := {| leb := Z.leb |}.
Proof.
  - intros a b. rewrite !Z.leb_le. lia.
  - intros a b c. rewrite !Z.leb_le. lia.
  - intros a b. rewrite !Z.leb_le. lia.
Defined.

Definition Rleb (a b : R) : bool := if Rle_dec a b then true else false.

#[export, refine] Instance Ordered_R : Ordered R := {| leb := Rleb |}.
Proof.
  - intros a b. unfold Rleb. destruct (Rle_dec a b), (Rle_dec b a); auto; lra.
  - intros a b c. unfold Rleb.
    destruct (Rle_dec a b), (Rle_dec b c), (Rle_dec a c);
      auto; try discriminate; lra.
  - intros a b. unfold Rleb.
    destruct (Rle_dec a b), (Rle_dec b a); try discriminate. lra.
Defined.

Section Ecdf.
Context {A : Type} `{Ordered A}.

Definition eqb (a b : A) : bool := leb a b && leb b a.

(** [np.unique(a, return_counts=True)]: the sorted distinct values of [a],
    and how many times each comes up. *)
Fixpoint insert_unique (v : A) (l : list A) : list A :=
  match l with
  | [] => [v]
  | h :: t =>
      if leb v h then (if leb h v then h :: t else v :: h :: t)
      else h :: insert_unique v t
  end.

Definition unique_values (a : list A) : list A :=
  fold_right insert_unique [] a.

Definition count (v : A) (a : list A) : nat :=
  length (filter (eqb v) a).

Definition unique (a : list A) : list A * list nat :=
  let x := unique_values a in (x, map (fun v => count v a) x).

(** [np.cumsum]. *)
Fixpoint cumsum_from (acc : nat) (l : list nat) : list nat :=
  match l with
  | [] => []
  | c :: t => (acc + c)%nat :: cumsum_from (acc + c) t
  end.
Definition cumsum (l : list nat) : list nat := cumsum_from 0 l.

(** [l[-1]]. *)
Definition last_item (l : list nat) : result nat :=
  match rev l with
  | [] => Raise IndexError
  | c :: _ => Ok c
  end.

(** Division of two counts, [c / total], as the exact fraction. *)
Definition ratio (total c : nat) : Q := Z.of_nat c # Pos.of_nat total.

(** Both branches of the [try] return the same values: with an array
    library that has [asnumpy] they are copied to the host, without it the
    [AttributeError] is caught and they are returned as they are. *)
Definition ecdf (has_asnumpy : bool) (a : list A) : result (list A * list Q) :=
  let '(x, counts) := unique a in
  let cusum := cumsum counts in
  if has_asnumpy then
    total <- last_item cusum ;;
    Ok (x, map (ratio total) cusum)
  else
    total <- last_item cusum ;;
    Ok (x, map (ratio total) cusum).

(** A call of [ecdf] on the array object held at index [r] of the store of
    arrays: the value returned and the store after the call. *)
Definition ecdf_call (has_asnumpy : bool) (store : list (list A)) (r : nat)
    : result (list A * list Q) * list (list A) :=
  (ecdf has_asnumpy (nth r store []), store).

(** The number of samples at most [v]. *)
Definition count_le (v : A) (a : list A) : nat :=
  length (filter (fun s => leb s v) a).

(** Strictly increasing sequences. *)
Fixpoint increasing (l : list A) : Prop :=
  match l with
  | [] => True
  | h :: t =>
      match t with
      | [] => True
      | h' :: _ => leb h h' = true /\ leb h' h = false
      end /\ increasing t
  end.
End Ecdf.

(** ** The beam-sweep script *)

Module Script.

(** Parameters of the script. *)
Definition tx_power : R := 100.
Definition num_pilots : nat := 1.
Definition T : R := 1 / 14.
Definition n_ttis : R := 200.
Definition total_tau : R := T * n_ttis.

(** *** The DFT codebook *)

(** [np.exp(-1j * 2 * np.pi / num_els)]. *)
Definition fundamental_freq (num_els : nat) : C :=
  Cexp_mj (2 * PI / INR num_els).

(** [np.meshgrid(xs, ys)]: the first matrix repeats [xs] on every row, the
    second holds [ys] down every column. *)
Definition meshgrid (xs ys : list nat) : list (list nat) * list (list nat) :=
  (map (fun _ => xs) ys, map (fun y => map (fun _ => y) xs) ys).

Definition DFT (num_els : nat) : list (list C) :=
  let '(J, K) := meshgrid (seq 0 num_els) (seq 0 num_els) in
  zip_with (zip_with (fun j k => Cpow (fundamental_freq num_els) (j * k)))
           J K.

Definition DFT_norm (num_els : nat) : list (list C) :=
  map (map (fun z => Cdivr z (sqrt (INR num_els)))) (DFT num_els).

(** Inner product of two rows, and the squared norm of a row. *)
Definition inner (u v : list C) : C :=
  Csum (zip_with (fun a b => Cmul a (Cconj b)) u v).
Definition norm2 (u : list C) : R :=
  fold_right Rplus 0 (map (fun z => Cabs z ^ 2) u).

(** *** Channels and signal-to-noise ratios *)

(** [(g_rb.conj()[np.newaxis, np.newaxis, :] * codebook[np.newaxis, :, :]
     * h_ur[:, np.newaxis, :]).sum(axis=-1)]: one row per user, one entry
    per configuration. *)
Definition h_eq_cb (g_rb : list C) (codebook h_ur : list (list C))
    : list (list C) :=
  map (fun h_u =>
         map (fun conf =>
                Csum (zip_with Cmul (zip_with Cmul (map Cconj g_rb) conf) h_u))
             codebook)
      h_ur.

(** [np.random.randn(...) + 1j * np.random.randn(...)], from the two arrays
    of draws. *)
Definition noise_ (re_draws im_draws : list (list R)) : list (list C) :=
  zip_with (zip_with (fun a b => Cadd (a, 0) (Cmul (0, 1) (b, 0))))
           re_draws im_draws.

Definition var (noise_power : R) (num_pilots : nat) : R :=
  noise_power / INR num_pilots / 2.

Definition bsw_noise_ (noise_power : R) (num_pilots : nat)
    (noise : list (list C)) : list (list C) :=
  map (map (Cscale (sqrt (var noise_power num_pilots)))) noise.

(** [np.abs(np.sqrt(tx_power) * h_eq_cb + bsw_noise_) ** 2]. *)
Definition sig_pow_noisy_cb (tx_power : R) (h_eq bsw_noise : list (list C))
    : list (list R) :=
  zip_with (zip_with (fun h w => Cabs (Cadd (Cscale (sqrt tx_power) h) w) ^ 2))
           h_eq bsw_noise.

Definition snr_cb_noisy (tx_power noise_power : R) (num_pilots : nat)
    (h_eq noise : list (list C)) : list (list R) :=
  map (map (fun p => p / noise_power))
      (sig_pow_noisy_cb tx_power h_eq (bsw_noise_ noise_power num_pilots noise)).

(** Mean and variance of a finite population of draws. *)
Definition mean (l : list R) : R := fold_right Rplus 0 l / INR (length l).
Definition variance (l : list R) : R :=
  mean (map (fun v => (v - mean l) ^ 2) l).

(** *** The beam-sweep search *)

(** [a >= b] on floats. *)
Definition Rgeb (a b : R) : bool := if Rge_dec a b then true else false.

(** The builtin [sum] on a sequence of booleans. *)
Definition sum_mask (mask : list bool) : nat :=
  fold_right (fun (b : bool) acc => ((if b then 1 else 0) + acc)%nat) 0%nat
             mask.

Fixpoint first_true (mask : list bool) : option nat :=
  match mask with
  | [] => None
  | true :: _ => Some 0%nat
  | false :: t => option_map S (first_true t)
  end.

(** [np.argmax] on booleans: the index of the first largest entry, that is
    of the first [True] when there is one and 0 otherwise; it raises
    [ValueError] on an empty sequence. *)
Definition argmax (mask : list bool) : result nat :=
  match mask with
  | [] => Raise ValueError
  | _ => Ok (match first_true mask with Some i => i | None => 0%nat end)
  end.

(** [m[i]]. *)
Definition get_item {A : Type} (m : list A) (i : nat) : result A :=
  match nth_error m i with
  | Some r => Ok r
  | None => Raise IndexError
  end.

Fixpoint set_nth {A : Type} (i : nat) (v : A) (l : list A) : list A :=
  match l, i with
  | [], _ => []
  | _ :: t, O => v :: t
  | h :: t, S i' => h :: set_nth i' v t
  end.

(** [m[i, j] = v]. *)
Definition set_item2 (m : list (list R)) (i j : nat) (v : R)
    : result (list (list R)) :=
  match nth_error m i with
  | Some row =>
      if (j <? length row)%nat then Ok (set_nth i (set_nth j v row) m)
      else Raise IndexError
  | None => Raise IndexError
  end.

Record flex : Type := mkFlex {
  rate_flex : list (list R);
  n_configurations_flex : list (list R)
}.

(** The body of the loop over the users, for the threshold [minimum_snr] of
    index [ms]. *)
Definition sweep_user (snr_noisy : list (list R)) (ms : nat)
    (minimum_snr : R) (uu : nat) (st : flex) : result flex :=
  row <- get_item snr_noisy uu ;;
  let mask := map (fun s => Rgeb s minimum_snr) row in
  if (sum_mask mask =? 0)%nat then Ok st          (* continue *)
  else
    index <- argmax mask ;;
    r <- set_item2 (rate_flex st) ms uu (log2 (1 + minimum_snr)) ;;
    c <- set_item2 (n_configurations_flex st) ms uu (INR (index + 1)) ;;
    Ok (mkFlex r c).

(** [for i, v in enumerate(l): st = body(i, v, st)], from index [i]. *)
Fixpoint for_enumerate {S X : Type} (i : nat) (l : list X)
    (body : nat -> X -> S -> result S) (st : S) : result S :=
  match l with
  | [] => Ok st
  | v :: t => st' <- body i v st ;; for_enumerate (Datatypes.S i) t body st'
  end.

Definition zeros2 (rows cols : nat) : list (list R) :=
  repeat (repeat 0 cols) rows.

Definition beam_sweep (num_users : nat) (minimum_snr_range : list R)
    (snr_noisy : list (list R)) : result flex :=
  for_enumerate 0 minimum_snr_range
    (fun ms minimum_snr =>
       for_range 0 num_users (sweep_user snr_noisy ms minimum_snr))
    (mkFlex (zeros2 (length minimum_snr_range) num_users)
            (zeros2 (length minimum_snr_range) num_users)).

(** What the search records for one user and one threshold. *)
Definition swept (row : list R) (minimum_snr : R) : R :=
  match first_true (map (fun s => Rgeb s minimum_snr) row) with
  | Some index => INR (index + 1)
  | None => 0
  end.
Definition rate_of (row : list R) (minimum_snr : R) : R :=
  match first_true (map (fun s => Rgeb s minimum_snr) row) with
  | Some _ => log2 (1 + minimum_snr)
  | None => 0
  end.

(** [index] is the first configuration whose noisy SNR is at least the
    threshold. *)
Definition first_clearing (row : list R) (minimum_snr : R) (index : nat)
    : Prop :=
  (index < length row)%nat
  /\ nth index row 0 >= minimum_snr
  /\ forall j, (j < index)%nat -> ~ nth j row 0 >= minimum_snr.

Definition none_clearing (row : list R) (minimum_snr : R) : Prop :=
  forall j, (j < length row)%nat -> ~ nth j row 0 >= minimum_snr.

(** [m[i, j]], with 0 out of range. *)
Definition item2 (m : list (list R)) (i j : nat) : R :=
  nth j (nth i m []) 0.

(** The monotonicity property as the specification states it: for a fixed
    noisy SNR per user, a larger threshold never records a smaller number
    of configurations swept. *)
Definition sweep_count_nondecreasing (minimum_snr_range : list R)
    (snr_noisy : list (list R)) : Prop :=
  forall st ms1 ms2 uu,
    beam_sweep (length snr_noisy) minimum_snr_range snr_noisy = Ok st ->
    (ms1 < length minimum_snr_range)%nat ->
    (ms2 < length minimum_snr_range)%nat ->
    (uu < length snr_noisy)%nat ->
    nth ms1 minimum_snr_range 0 <= nth ms2 minimum_snr_range 0 ->
    item2 (n_configurations_flex st) ms1 uu
    <= item2 (n_configurations_flex st) ms2 uu.

(** *** Rate accounting *)

Definition tau_setup (setup : string) : R :=
  if String.eqb setup "ob-cc" then T
  else if String.eqb setup "ib-no" then 2 * T
  else 3 * T.

Definition tau_alg (n_conf : list (list R)) : list (list R) :=
  map (map (fun c => (2 * c - 1) * T)) n_conf.

Definition prelog_term (setup : string) (n_conf : list (list R))
    : list (list R) :=
  map (map (fun a => 1 - (tau_setup setup + tau_setup setup + a) / total_tau))
      (tau_alg n_conf).

Definition rate_cb_bsw (setup : string) (st : flex) : list (list R) :=
  zip_with (zip_with Rmult)
           (prelog_term setup (n_configurations_flex st)) (rate_flex st).

(** [np.mean(rate_cb_bsw, axis=-1)]. *)
Definition avg_rate_cb_bsw (setup : string) (st : flex) : list R :=
  map mean (rate_cb_bsw setup st).

(** The accounting as the specification words it: every sweep step costs
    one period [T], the overhead and the setup's signalling overhead are
    taken from the total coherence time, and the fraction left multiplies
    [log2 (1 + threshold)]. *)
Definition overhead_spec (c : R) : R := c * T.
Definition data_fraction_spec (setup : string) (c : R) : R :=
  (total_tau - (overhead_spec c + tau_setup setup)) / total_tau.
Definition effective_rate_spec (setup : string) (c threshold : R) : R :=
  data_fraction_spec setup c * log2 (1 + threshold).

End Script.

(** A small scene used in the examples: two elements half a wavelength
    apart, one resource block at 3 GHz, both weights equal to one. *)
Definition example_env : RisProtocolEnv :=
  {| wavelength := 1 / 10;
     z_size := 5;
     pl_exponent := 2;
     dist_br := 20;
     ref_dist := 1;
     bs_gain := 2;
     ue_gain := 2;
     bs_cartver := (1, 0, 0);
     freqs := [3000000000];
     ris_num_els_h := 2;
     ris_dist_els_h := 1 / 20;
     ris_el_pos := [(0, 0, 0); (1 / 20, 0, 0)];
     ris_actual_conf := [(1, 0); (1, 0)] |}.

(** ** Further parts of [environment.py] and of the script *)

(** *** [RisProtocolEnv.__init__]: the geometry the constructor computes *)

(** The entries of a [K]-by-3 array, row after row. *)
Definition entries (x : list vec3) : list R :=
  flat_map (fun p : vec3 => let '(a, b, c) := p in [a; b; c]) x.

(** [np.max] of an array; it raises [ValueError] on an empty one. *)
Definition np_max (l : list R) : result R :=
  match l with
  | [] => Raise ValueError
  | h :: t => Ok (fold_left Rmax t h)
  end.

(** [max_pos = max(side, np.max(bs_position))]. *)
Definition init_max_pos (side : R) (bs_position : list vec3) : result R :=
  m <- np_max (entries bs_position) ;; Ok (Rmax side m).

(** [sides = 2 * np.array([max_pos, max_pos, max_pos])]. *)
Definition init_sides (side : R) (bs_position : list vec3) : result vec3 :=
  max_pos <- init_max_pos side bs_position ;;
  Ok (2 * max_pos, 2 * max_pos, 2 * max_pos).

(** [np.hstack((x, y, z))] of three columns. *)
Definition hstack3 (x y z : list R) : list vec3 :=
  map (fun xyz : R * R * R => xyz) (combine (combine x y) z).

(** The user positions, from the three arrays of draws of
    [np.random.rand(num_users, 1)]. *)
Definition init_ue_position (side : R) (rx ry rz : list R) : list vec3 :=
  hstack3 (map (fun u => side * u - side / 2) rx)
          (map (fun u => side * u) ry)
          (map (fun u => - side * u) rz).

(** A draw of [np.random.rand]: a number of the half-open interval [0, 1). *)
Definition unit_draw (u : R) : Prop := 0 <= u < 1.

(** *** [command_parser] *)






Module ScriptMain.
Import Script.


(** The users the script drops, from its three arrays of draws. *)
Definition ue_pos (cube_length : R) (rx ry rz : list R) : list vec3 :=
  hstack3 (map (fun u => cube_length * u - cube_length) rx)
          (map (fun u => cube_length / 2 * u) ry)
          (map (fun u => cube_length * u - cube_length / 2) rz).

(** [tx_power * np.abs(h_eq_cb) ** 2]. *)
Definition sig_pow_cb (tx_power : R) (h_eq : list (list C)) : list (list R) :=
  map (map (fun h => tx_power * Cabs h ^ 2)) h_eq.

Definition snr_cb (tx_power noise_power : R) (h_eq : list (list C))
    : list (list R) :=
  map (map (fun p => p / noise_power)) (sig_pow_cb tx_power h_eq).

(** [np.log2(1 + snr)]. *)
Definition rate_cb (snr : list (list R)) : list (list R) :=
  map (map (fun s => log2 (1 + s))) snr.

(** An array of noise draws that are all zero, of the shape of [h_eq]. *)
Definition no_noise (h_eq : list (list C)) : list (list C) :=
  map (map (fun _ => C0)) h_eq.

End ScriptMain.

(** * Theorems *)



(** ** Lists and arrays *)

Section ListFacts.
Context {A B D : Type}.

Lemma zip_with_map_same {X : Type} (g : A -> B -> D) (a : X -> A)
    (b : X -> B) (l : list X) :
  zip_with g (map a l) (map b l) = map (fun x => g (a x) (b x)) l.
Proof. induction l as [|x l IH]; simpl; [reflexivity | now rewrite IH]. Qed.

Lemma combine_repeat_r (c : B) (l : list A) :
  combine l (repeat c (length l)) = map (fun x => (x, c)) l.
Proof. induction l as [|x l IH]; simpl; [reflexivity | now rewrite IH]. Qed.

Lemma combine_map_r (f : B -> D) (l : list A) (l' : list B) :
  combine l (map f l') = map (fun p => (fst p, f (snd p))) (combine l l').
Proof.
  revert l'; induction l as [|x l IH]; intros [|y l']; simpl;
    try reflexivity.
  now rewrite IH.
Qed.

Lemma repeat_as_map (c : B) (l : list A) :
  repeat c (length l) = map (fun _ => c) l.
Proof. induction l as [|x l IH]; simpl; [reflexivity | now rewrite IH]. Qed.

Lemma combine_skipn (k : nat) (l : list A) (l' : list B) :
  combine (skipn k l) (skipn k l') = skipn k (combine l l').
Proof.
  revert l l'; induction k as [|k IH]; intros l l'; [reflexivity|].
  destruct l as [|x l]; [reflexivity|].
  destruct l' as [|y l']; simpl.
  - now destruct (skipn k l).
  - apply IH.
Qed.

Lemma combine_slice (a b : nat) (l : list A) (l' : list B) :
  combine (slice a b l) (slice a b l') = slice a b (combine l l').
Proof.
  unfold slice. now rewrite <- combine_firstn, combine_skipn.
Qed.
End ListFacts.

Lemma sum_axis0_closed {X F P : Type} (h : X -> F -> P -> C) (ws : list X)
    (fs : list F) (pts : list P) :
  sum_axis0 (length fs) (length pts)
    (map (fun w => map (fun f => map (fun pt => h w f pt) pts) fs) ws)
  = map (fun f => map (fun pt => Csum (map (fun w => h w f pt) ws)) pts) fs.
Proof.
  unfold sum_axis0. induction ws as [|w ws IH]; simpl.
  - rewrite repeat_as_map. apply map_ext; intros f.
    now rewrite repeat_as_map.
  - rewrite IH, zip_with_map_same. apply map_ext; intros f.
    now rewrite zip_with_map_same.
Qed.

(** ** [compute_afgain] *)

Lemma phase_shift_sum (e : RisProtocolEnv) (dists : list R)
    (versors : list vec3) :
  let pts := combine dists versors in
  add3 (phase_shift_ru_of e dists versors) (phase_shift_br_of e (length pts))
  = map (fun p =>
           map (fun f =>
                  map (fun dv : R * vec3 =>
                         f * (fst dv - dot (snd dv) p)
                         + f * (dist_br e - dot (bs_cartver e) p)) pts)
               (freqs e))
        (ris_el_pos e).
Proof.
  intros pts. unfold phase_shift_ru_of, phase_shift_br_of, freqs_times,
    freqs_times_rows, add3, RBs. fold pts.
  rewrite !map_map, zip_with_map_same.
  apply map_ext; intros p.
  rewrite combine_repeat_r, map_map. cbn [fst snd].
  rewrite zip_with_map_same. apply map_ext; intros f.
  rewrite repeat_as_map, !map_map, zip_with_map_same. reflexivity.
Qed.

Lemma af_block_closed (e : RisProtocolEnv) (m : nat) (dists : list R)
    (versors : list vec3) :
  length (combine dists versors) = m ->
  af_block e m (phase_shift_ru_of e dists versors) (phase_shift_br_of e m)
  = gains_of e (combine dists versors).
Proof.
  intros <-. set (pts := combine dists versors). unfold af_block. unfold pts at 2. rewrite phase_shift_sum.
  fold pts. rewrite combine_map_r, map_map. cbn [fst snd].
  unfold RBs, gains_of.
  rewrite (map_ext _
             (fun wp : C * vec3 =>
                map (fun f =>
                       map (fun dv : R * vec3 =>
                              Cmul (fst wp)
                                (Cexp_mj (2 * PI / speed_of_light
                                  * (f * (fst dv - dot (snd dv) (snd wp))
                                     + f * (dist_br e
                                            - dot (bs_cartver e) (snd wp))))))
                           pts)
                    (freqs e))).
  2:{ intros wp. rewrite map_map. apply map_ext; intros f.
      now rewrite map_map. }
  rewrite (sum_axis0_closed
             (fun (wp : C * vec3) (f : R) (dv : R * vec3) =>
                Cmul (fst wp)
                  (Cexp_mj (2 * PI / speed_of_light
                            * (f * (fst dv - dot (snd dv) (snd wp))
                               + f * (dist_br e - dot (bs_cartver e) (snd wp))))))).
  rewrite map_map. apply map_ext; intros f.
  rewrite map_map. reflexivity.
Qed.

Lemma skipn_repeat {A : Type} (c : A) (k m : nat) :
  skipn k (repeat c m) = repeat c (m - k).
Proof.
  revert m; induction k as [|k IH]; intros m.
  - now rewrite Nat.sub_0_r.
  - destruct m as [|m]; [reflexivity | apply IH].
Qed.

Lemma slice_length {A : Type} (a w : nat) (l : list A) :
  (a + w <= length l)%nat -> length (slice a (a + w) l) = w.
Proof.
  intros H. unfold slice. rewrite length_firstn, length_skipn. lia.
Qed.

Lemma firstn_slice {A : Type} (a w : nat) (l : list A) :
  firstn a l ++ slice a (a + w) l = firstn (a + w) l.
Proof.
  unfold slice. replace (a + w - a)%nat with w by lia.
  rewrite <- (firstn_skipn a (firstn (a + w) l)).
  rewrite firstn_firstn, Nat.min_l by lia.
  now rewrite skipn_firstn_comm, Nat.add_comm, Nat.add_sub.
Qed.

Lemma slice_to_end {A : Type} (a : nat) (l : list A) :
  slice a (a + (length l - a)) l = slice_from a l.
Proof.
  unfold slice, slice_from. apply firstn_all2. rewrite length_skipn. lia.
Qed.

Section AfGain.
Variable e : RisProtocolEnv.
Variable x : list vec3.

Let N := length x.
Let pos_dist := map norm x.
Let pos_versor :=
  map (fun pd : vec3 * R => vdiv (fst pd) (snd pd)) (combine x pos_dist).
Let pts := polar x.

Lemma length_pts : length pts = N.
Proof.
  unfold pts, polar, N.
  rewrite !length_combine, !length_map, !length_combine, !length_map. lia.
Qed.

(** The array [af_gain] once its first [k] entries are computed. *)
Let filled (f : R) (k : nat) : list R :=
  map (af_gain_point e f) (firstn k pts) ++ repeat 0 (N - k).

Lemma filled_length (f : R) (k : nat) : (k <= N)%nat -> length (filled f k) = N.
Proof.
  intros H. unfold filled.
  rewrite length_app, length_map, length_firstn, repeat_length, length_pts.
  lia.
Qed.

Lemma filled_all (f : R) : filled f N = map (af_gain_point e f) pts.
Proof.
  unfold filled. rewrite <- length_pts at 1. rewrite firstn_all, Nat.sub_diag.
  apply app_nil_r.
Qed.

Lemma assign_at_gains (arr : list R) (a w : nat) (ps : list (R * vec3)) :
  length ps = w ->
  assign_at arr a w (gains_of e ps)
  = match freqs e with
    | [f] => Ok (firstn a arr ++ map (af_gain_point e f) ps
                 ++ skipn (a + w) arr)
    | _ => Raise ValueError
    end.
Proof.
  intros Hw. unfold assign_at, gains_of.
  destruct (freqs e) as [|f [|f' fs]]; simpl; try reflexivity.
  rewrite length_map, Hw, Nat.eqb_refl. reflexivity.
Qed.

Lemma fill_step (f : R) (a w : nat) :
  (a + w <= N)%nat ->
  firstn a (filled f a) ++ map (af_gain_point e f) (slice a (a + w) pts)
    ++ skipn (a + w) (filled f a)
  = filled f (a + w).
Proof.
  intros H. unfold filled.
  assert (Ha : length (map (af_gain_point e f) (firstn a pts)) = a).
  { rewrite length_map, length_firstn, length_pts. lia. }
  rewrite firstn_app, Ha, Nat.sub_diag, firstn_O, app_nil_r.
  rewrite <- Ha at 1. rewrite firstn_all.
  rewrite skipn_app, Ha, skipn_all2 by lia.
  replace (a + w - a)%nat with w by lia.
  rewrite skipn_repeat, app_nil_l, app_assoc, <- map_app, firstn_slice.
  now replace (N - a - w)%nat with (N - (a + w))%nat by lia.
Qed.

Section Batches.
Variable n : nat.
Hypothesis n_pos : (0 < n)%nat.

(** A full batch: the block is the gains of the batch's points. *)
Lemma afgain_batch_closed (i : nat) (st : afgain_locals) :
  ((i + 1) * n <= N)%nat ->
  length (af_gain st) = N ->
  phase_shift_br st = phase_shift_br_of e n ->
  afgain_batch e n pos_dist pos_versor i st
  = (g <- assign_at (af_gain st) (i * n) n
            (gains_of e (slice (i * n) ((i + 1) * n) pts)) ;;
     Ok (mkLocals g
           (Some (phase_shift_ru_of e
                    (slice (i * n) ((i + 1) * n) pos_dist)
                    (slice (i * n) ((i + 1) * n) pos_versor)))
           (phase_shift_br st))).
Proof.
  intros Hi Hlen Hbr. unfold afgain_batch, set_slice.
  replace ((i + 1) * n)%nat with (i * n + n)%nat in * by lia.
  rewrite slice_length by lia.
  assert (Hn : length (combine (slice (i * n) (i * n + n) pos_dist)
                               (slice (i * n) (i * n + n) pos_versor)) = n).
  { rewrite combine_slice. apply slice_length.
    change (combine pos_dist pos_versor) with pts.
    rewrite length_pts. lia. }
  rewrite Hbr, af_block_closed, combine_slice by exact Hn. reflexivity.
Qed.

Lemma batches_ok (f : R) (k i : nat) (st : afgain_locals) :
  freqs e = [f] ->
  ((i + k) * n <= N)%nat ->
  af_gain st = filled f (i * n) ->
  phase_shift_br st = phase_shift_br_of e n ->
  exists st',
    for_range i k (afgain_batch e n pos_dist pos_versor) st = Ok st'
    /\ af_gain st' = filled f ((i + k) * n)
    /\ (k = 0%nat -> phase_shift_ru st' = phase_shift_ru st)
    /\ (k <> 0%nat -> phase_shift_ru st' <> None).
Proof.
  intros Hf. revert i st. induction k as [|k IH]; intros i st Hk Hg Hbr.
  - exists st. rewrite Nat.add_0_r. simpl. repeat split; [assumption | tauto].
  - simpl. rewrite afgain_batch_closed; try assumption; try lia.
    2:{ rewrite Hg. apply filled_length. lia. }
    replace ((i + 1) * n)%nat with (i * n + n)%nat by lia.
    rewrite assign_at_gains, Hf, Hg.
    2:{ apply slice_length. rewrite length_pts. lia. }
    rewrite fill_step by lia. simpl.
    destruct (IH (S i)
                (mkLocals (filled f (i * n + n))
                   (Some (phase_shift_ru_of e
                            (slice (i * n) (i * n + n) pos_dist)
                            (slice (i * n) (i * n + n) pos_versor)))
                   (phase_shift_br st)))
      as (st' & Hrun & Hg' & Hru0 & Hru).
    + lia.
    + simpl. f_equal. lia.
    + assumption.
    + exists st'. split; [exact Hrun|]. split.
      * rewrite Hg'. f_equal. lia.
      * split; [discriminate|]. intros _.
        destruct k as [|k'].
        -- rewrite Hru0 by reflexivity. discriminate.
        -- apply Hru. discriminate.
Qed.

Lemma first_batch_bad (k : nat) (st : afgain_locals) :
  RBs e <> 1%nat ->
  (n <= N)%nat ->
  length (af_gain st) = N ->
  phase_shift_br st = phase_shift_br_of e n ->
  for_range 0 (S k) (afgain_batch e n pos_dist pos_versor) st
  = Raise ValueError.
Proof.
  intros Hf Hk Hlen Hbr. simpl.
  rewrite afgain_batch_closed; try assumption; try lia.
  rewrite assign_at_gains.
  2:{ replace ((0 + 1) * n)%nat with (0 * n + n)%nat by lia.
      apply slice_length. rewrite length_pts. lia. }
  unfold RBs in Hf.
  destruct (freqs e) as [|f [|f' fs]]; simpl in *; congruence.
Qed.

(** The last, partial batch. *)
Lemma last_batch_closed (a : nat) (arr : list R) :
  (a <= N)%nat ->
  length arr = N ->
  set_slice_from arr a
    (af_block e (N - a)
       (phase_shift_ru_of e (slice_from a pos_dist)
                            (slice_from a pos_versor))
       (phase_shift_br_of e (N - a)))
  = match freqs e with
    | [f] => Ok (firstn a arr
                 ++ map (af_gain_point e f) (slice a (a + (N - a)) pts)
                 ++ skipn (a + (N - a)) arr)
    | _ => Raise ValueError
    end.
Proof.
  intros Ha Hlen. unfold set_slice_from, slice_from.
  rewrite length_skipn, Hlen.
  assert (Hm : length (combine (skipn a pos_dist) (skipn a pos_versor))
               = (N - a)%nat).
  { rewrite combine_skipn, length_skipn.
    change (combine pos_dist pos_versor) with pts.
    now rewrite length_pts. }
  rewrite af_block_closed by exact Hm.
  rewrite assign_at_gains by exact Hm.
  rewrite combine_skipn. change (combine pos_dist pos_versor) with pts.
  pose proof (slice_to_end a pts) as Hs. rewrite length_pts in Hs.
  rewrite Hs. reflexivity.
Qed.

Lemma compute_afgain_batched_closed :
  x <> [] ->
  compute_afgain_batched n e x
  = match freqs e with
    | [f] => Ok (map (af_gain_point e f) pts)
    | _ => Raise ValueError
    end.
Proof.
  intros Hx.
  assert (HN : (0 < N)%nat).
  { unfold N. destruct x; [congruence | simpl; lia]. }
  unfold compute_afgain_batched.
  change (length x) with N. change (map norm x) with pos_dist.
  change (map (fun pd : vec3 * R => vdiv (fst pd) (snd pd))
              (combine x pos_dist)) with pos_versor.
  pose proof (Nat.Div0.mul_div_le N n) as Hdiv.
  set (iter := (N / n)%nat) in *.
  assert (Hiter : (iter * n <= N)%nat) by lia.
  destruct (freqs e) as [|f [|f' fs]] eqn:Hf.
  2:{ (* one frequency *)
    destruct (batches_ok f iter 0
                (mkLocals (repeat 0 N) None (phase_shift_br_of e n)))
      as (st' & Hrun & Hg & Hru0 & Hru); try assumption;
      try reflexivity.
    { simpl. unfold filled. simpl. now rewrite Nat.sub_0_r. }
    rewrite Hrun. simpl bind. simpl in Hg.
    destruct (0 <? N - iter * n)%nat eqn:Hn2.
    - rewrite Hg, last_batch_closed, Hf; try assumption.
      2:{ apply filled_length; assumption. }
      rewrite fill_step by lia.
      replace (iter * n + (N - iter * n))%nat with N by lia.
      simpl. now rewrite filled_all.
    - apply Nat.ltb_ge in Hn2.
      assert (HiN : (iter * n)%nat = N) by lia.
      simpl.
      destruct (phase_shift_ru st') eqn:Hst.
      + now rewrite Hg, HiN, filled_all.
      + exfalso. apply Hru; [|reflexivity].
        intros H0. rewrite H0 in HiN. simpl in HiN. lia. }
  all: assert (Hbad : RBs e <> 1%nat) by (unfold RBs; rewrite Hf; simpl; lia).
  all: destruct iter as [|k] eqn:Hk.
  all: try (rewrite first_batch_bad;
            [reflexivity | assumption | lia | apply repeat_length
            | reflexivity]).
  all: simpl for_range; simpl bind; cbn [af_gain].
  all: replace (N - 0 * n)%nat with (N - 0)%nat by lia.
  all: assert (Hlt : (0 <? N - 0)%nat = true) by (apply Nat.ltb_lt; lia).
  all: rewrite Hlt.
  all: replace (0 * n)%nat with 0%nat by lia.
  all: rewrite last_batch_closed, Hf by (try apply repeat_length; lia).
  all: reflexivity.
Qed.
End Batches.

Lemma compute_afgain_single_batch_closed :
  compute_afgain_single_batch e x
  = match freqs e with
    | [f] => Ok (map (af_gain_point e f) pts)
    | _ => Raise ValueError
    end.
Proof.
  unfold compute_afgain_single_batch.
  change (length x) with N. change (map norm x) with pos_dist.
  change (map (fun pd : vec3 * R => vdiv (fst pd) (snd pd))
              (combine x pos_dist)) with pos_versor.
  pose proof (last_batch_closed 0 (repeat 0 N)) as H.
  rewrite !Nat.sub_0_r in H.
  change (slice_from 0 pos_dist) with pos_dist in H.
  change (slice_from 0 pos_versor) with pos_versor in H.
  rewrite H by (try apply repeat_length; lia).
  destruct (freqs e) as [|f [|f' fs]]; try reflexivity.
  assert (H0 : filled f 0 = repeat 0 N).
  { unfold filled. simpl. now rewrite Nat.sub_0_r. }
  rewrite <- H0, (fill_step f 0 N) by lia.
  simpl. now rewrite filled_all.
Qed.
End AfGain.

Lemma batch_size_pos : (0 < batch_size)%nat.
Proof.
  unfold batch_size. apply Nat.neq_0_lt_0, Nat.pow_nonzero. discriminate.
Qed.

Lemma compute_afgain_batched_empty (n : nat) (e : RisProtocolEnv) :
  compute_afgain_batched n e [] = Raise UnboundLocalError.
Proof.
  unfold compute_afgain_batched. cbn [length map combine].
  rewrite Nat.Div0.div_0_l. reflexivity.
Qed.

Lemma gains_length (e : RisProtocolEnv) (f : R) (x : list vec3) :
  length (map (af_gain_point e f) (polar x)) = length x.
Proof. rewrite length_map. apply length_pts. Qed.

(** C1: on a point set of at least one point, [compute_afgain], which splits
    the points into batches of at most 10^6 with a separate last partial batch,
    gives exactly what the evaluation of the full set at once gives, for every
    loaded configuration; with one resource block both are the array of the
    points' gains. *)
Theorem compute_afgain_batch_invariant (e : RisProtocolEnv) (x : list vec3) :
  x <> [] ->
  compute_afgain e x = compute_afgain_single_batch e x
  /\ (RBs e = 1%nat ->
      compute_afgain_single_batch e x
      = Ok (map (af_gain_point e (hd 0 (freqs e))) (polar x))).
Proof.
  intros Hx. unfold compute_afgain.
  rewrite (compute_afgain_batched_closed e x batch_size batch_size_pos Hx).
  rewrite compute_afgain_single_batch_closed. split; [reflexivity|].
  unfold RBs. destruct (freqs e) as [|f [|f' fs]]; simpl; try discriminate.
  reflexivity.
Qed.

Lemma compute_afgain_batch_invariant_witness :
  compute_afgain example_env [(1, 2, 2); (0, 3, 4)]
  = compute_afgain_single_batch example_env [(1, 2, 2); (0, 3, 4)]
  /\ (RBs example_env = 1%nat ->
      compute_afgain_single_batch example_env [(1, 2, 2); (0, 3, 4)]
      = Ok (map (af_gain_point example_env (hd 0 (freqs example_env)))
                (polar [(1, 2, 2); (0, 3, 4)]))).
Proof.
  apply (compute_afgain_batch_invariant example_env [(1, 2, 2); (0, 3, 4)]).
  discriminate.
Defined.

(** With more than one resource block (or none) the first slice assignment
    cannot broadcast the block of gains into [af_gain]. *)
Lemma compute_afgain_blocks_mismatch (e : RisProtocolEnv) (x : list vec3) :
  x <> [] -> RBs e <> 1%nat -> compute_afgain e x = Raise ValueError.
Proof.
  intros Hx HR. unfold compute_afgain.
  rewrite (compute_afgain_batched_closed e x batch_size batch_size_pos Hx).
  unfold RBs in HR.
  destruct (freqs e) as [|f [|f' fs]]; simpl in HR; congruence.
Qed.

(** C10 as stated fails: with two resource blocks and one point
    [compute_afgain] returns no array, it raises [ValueError] at the first
    assignment to a slice of [af_gain]. *)
Lemma compute_afgain_two_blocks_no_array :
  compute_afgain
    (mkEnv (1 / 10) 5 2 20 1 2 2 (1, 0, 0) [3000000000; 3000180000] 2
           (1 / 20) [(0, 0, 0); (1 / 20, 0, 0)] [(1, 0); (1, 0)])
    [(1, 2, 2)]
  = Raise ValueError
  /\ ~ exists g,
        compute_afgain
          (mkEnv (1 / 10) 5 2 20 1 2 2 (1, 0, 0) [3000000000; 3000180000] 2
                 (1 / 20) [(0, 0, 0); (1 / 20, 0, 0)] [(1, 0); (1, 0)])
          [(1, 2, 2)]
        = Ok g
        /\ length g = length [(1, 2, 2)].
Proof.
  assert (Hrun : compute_afgain
                   (mkEnv (1 / 10) 5 2 20 1 2 2 (1, 0, 0)
                          [3000000000; 3000180000] 2 (1 / 20)
                          [(0, 0, 0); (1 / 20, 0, 0)] [(1, 0); (1, 0)])
                   [(1, 2, 2)]
                 = Raise ValueError).
  { unfold compute_afgain.
    rewrite (compute_afgain_batched_closed _ [(1, 2, 2)] batch_size
               batch_size_pos) by discriminate.
    reflexivity. }
  split; [exact Hrun|]. intros (g & Hg & _). rewrite Hrun in Hg.
  discriminate.
Qed.

(** C10, amended: on zero points [compute_afgain] raises (the final [del]
    names [phase_shift_ru], which no batch has bound); on at least one point,
    in an environment of exactly one resource block, it returns an array of
    as many gains as there are points. *)
Theorem compute_afgain_empty_raises (e : RisProtocolEnv) (x : list vec3) :
  (x = [] -> compute_afgain e x = Raise UnboundLocalError)
  /\ (x <> [] -> RBs e = 1%nat ->
      exists g, compute_afgain e x = Ok g /\ length g = length x).
Proof.
  split.
  - intros ->. apply compute_afgain_batched_empty.
  - intros Hx HR. unfold compute_afgain.
    rewrite (compute_afgain_batched_closed e x batch_size batch_size_pos Hx).
    unfold RBs in HR.
    destruct (freqs e) as [|f [|f' fs]]; simpl in HR; try discriminate.
    eexists; split; [reflexivity | apply gains_length].
Qed.

Lemma compute_afgain_empty_raises_witness :
  compute_afgain example_env [] = Raise UnboundLocalError
  /\ exists g, compute_afgain example_env [(1, 2, 2); (0, 3, 4)] = Ok g
               /\ length g = 2%nat.
Proof.
  split.
  - apply (proj1 (compute_afgain_empty_raises example_env [])). reflexivity.
  - apply (proj2 (compute_afgain_empty_raises example_env
                    [(1, 2, 2); (0, 3, 4)])).
    + discriminate.
    + reflexivity.
Defined.

Example compute_afgain_batched_by_two :
  compute_afgain_batched 2 example_env
    [(1, 2, 2); (0, 3, 4); (1, 0, 0); (0, 0, 2); (3, 0, 4)]
  = compute_afgain_single_batch example_env
      [(1, 2, 2); (0, 3, 4); (1, 0, 0); (0, 0, 2); (3, 0, 4)].
Proof. reflexivity. Qed.

Example compute_afgain_batched_by_two_length :
  exists g,
    compute_afgain_batched 2 example_env
      [(1, 2, 2); (0, 3, 4); (1, 0, 0); (0, 0, 2); (3, 0, 4)] = Ok g
    /\ length g = 5%nat.
Proof. eexists. split; reflexivity. Qed.

Example compute_afgain_batched_no_point :
  compute_afgain_batched 2 example_env [] = Raise UnboundLocalError.
Proof. reflexivity. Qed.

(** ** [pos2beta] *)

Lemma nested_quotient (w r : R) : w / 4 / PI / r = w / (4 * PI * r).
Proof. unfold Rdiv. rewrite !Rinv_mult. ring. Qed.

(** C6: [pos2beta] returns, for every point, 10 to the power [- pl / 10]
    where [pl] is the sum in dB of [10 * pl_exponent * log10 (dist_br * |x|)],
    minus the two antenna gains, minus [40 * log10 (wavelength / (4 pi
    ref_dist))], minus [20 * pl_exponent * log10 ref_dist]. *)
Theorem pos2beta_additive_dB (e : RisProtocolEnv) (x : list vec3) :
  pos2beta e x = map (fun p => Rpower 10 (- pathloss_dB_spec e p / 10)) x.
Proof.
  unfold pos2beta. apply map_ext. intros p.
  unfold pos2beta_row, pathloss_dB_spec. rewrite nested_quotient.
  f_equal. lra.
Qed.

(** ** The beam-sweep search *)

Section BeamSweep.
Import Script.

Lemma Rgeb_true (a b : R) : Rgeb a b = true <-> a >= b.
Proof.
  unfold Rgeb. destruct (Rge_dec a b); split; auto; discriminate.
Qed.

Lemma Rgeb_false (a b : R) : Rgeb a b = false <-> ~ a >= b.
Proof.
  unfold Rgeb. destruct (Rge_dec a b); split; auto;
    try discriminate; tauto.
Qed.

Lemma sum_mask_zero (mask : list bool) :
  sum_mask mask = 0%nat <-> first_true mask = None.
Proof.
  induction mask as [|[|] mask IH]; simpl.
  - tauto.
  - split; discriminate.
  - rewrite IH. destruct (first_true mask); simpl; split;
      congruence.
Qed.

Lemma argmax_first_true (mask : list bool) (i : nat) :
  first_true mask = Some i -> argmax mask = Ok i.
Proof.
  intros Hi. unfold argmax. rewrite Hi.
  destruct mask; [discriminate | reflexivity].
Qed.

Lemma first_true_clearing (row : list R) (t : R) (i : nat) :
  first_true (map (fun s => Rgeb s t) row) = Some i <->
  first_clearing row t i.
Proof.
  unfold first_clearing. revert i.
  induction row as [|s row IH]; intros i; simpl.
  - split; [discriminate | intros [Hi _]; lia].
  - destruct (Rgeb s t) eqn:Hs.
    + apply Rgeb_true in Hs. split.
      * intros [= <-]. repeat split; [lia | assumption | intros j Hj; lia].
      * intros (_ & _ & Hmin). destruct i as [|i]; [reflexivity|].
        exfalso. apply (Hmin 0%nat); [lia | assumption].
    + apply Rgeb_false in Hs. split.
      * destruct (first_true _) as [i'|] eqn:Hft; simpl; [|discriminate].
        intros [= <-]. destruct (proj1 (IH i') eq_refl) as (Hlt & Hge & Hmin).
        repeat split; [lia | assumption |].
        intros [|j] Hj; [assumption | apply Hmin; lia].
      * intros (Hlt & Hge & Hmin). destruct i as [|i]; [contradiction|].
        rewrite (proj2 (IH i)); [reflexivity|].
        repeat split; [lia | assumption |].
        intros j Hj. apply (Hmin (S j)). lia.
Qed.

Lemma first_true_none (row : list R) (t : R) :
  first_true (map (fun s => Rgeb s t) row) = None <-> none_clearing row t.
Proof.
  unfold none_clearing. induction row as [|s row IH]; simpl.
  - split; [intros _ j Hj; lia | reflexivity].
  - destruct (Rgeb s t) eqn:Hs.
    + apply Rgeb_true in Hs. split; [discriminate|].
      intros Hn. exfalso. apply (Hn 0%nat); [lia | assumption].
    + apply Rgeb_false in Hs.
      destruct (first_true _) as [i'|] eqn:Hft; simpl.
      * split; [discriminate|]. intros Hn. exfalso.
        assert (Hnone : Some i' = None).
        { apply IH. intros j Hj. apply (Hn (S j)). lia. }
        discriminate.
      * split; [|reflexivity]. intros _ [|j] Hj; [assumption|].
        apply (proj1 IH eq_refl). lia.
Qed.

Lemma firstn_succ {A : Type} (l : list A) (j : nat) (a : A) :
  nth_error l j = Some a -> firstn (S j) l = firstn j l ++ [a].
Proof.
  revert j; induction l as [|h l IH]; intros [|j] Hj; simpl in *;
    try discriminate.
  - now injection Hj as ->.
  - now rewrite (IH j Hj).
Qed.

Lemma set_nth_app {A : Type} (l1 l2 : list A) (old v : A) :
  set_nth (length l1) v (l1 ++ old :: l2) = l1 ++ v :: l2.
Proof. induction l1 as [|h l1 IH]; simpl; [reflexivity | now rewrite IH]. Qed.

Lemma set_nth_twice {A : Type} (l : list A) (i : nat) (v w : A) :
  set_nth i v (set_nth i w l) = set_nth i v l.
Proof.
  revert i; induction l as [|h l IH]; intros [|i]; simpl;
    try reflexivity.
  now rewrite IH.
Qed.

Lemma set_nth_same {A : Type} (l : list A) (i : nat) (v : A) :
  nth_error l i = Some v -> set_nth i v l = l.
Proof.
  revert i; induction l as [|h l IH]; intros [|i] Hi; simpl in *;
    try discriminate.
  - now injection Hi as ->.
  - now rewrite (IH i Hi).
Qed.

Lemma nth_error_set_nth {A : Type} (l : list A) (i : nat) (v old : A) :
  nth_error l i = Some old -> nth_error (set_nth i v l) i = Some v.
Proof.
  revert i; induction l as [|h l IH]; intros [|i] Hi; simpl in *;
    try discriminate.
  - reflexivity.
  - apply (IH i Hi).
Qed.

Variable snr : list (list R).
Let U := length snr.

(** A row of an output array once the first [j] users are processed. *)
Let frow (f : list R -> R) (j : nat) : list R :=
  map f (firstn j snr) ++ repeat 0 (U - j).

Lemma frow_length (f : list R -> R) (j : nat) :
  (j <= U)%nat -> length (frow f j) = U.
Proof.
  intros Hj. unfold frow.
  rewrite length_app, length_map, length_firstn, repeat_length.
  fold U. lia.
Qed.

Lemma frow_step (f : list R -> R) (j : nat) (row : list R) :
  nth_error snr j = Some row ->
  set_nth j (f row) (frow f j) = frow f (S j).
Proof.
  intros Hj.
  assert (HjU : (j < U)%nat) by (apply nth_error_Some; congruence).
  unfold frow. rewrite (firstn_succ _ _ _ Hj), map_app, <- app_assoc.
  replace (U - j)%nat with (S (U - S j)) by lia. simpl.
  assert (Hlen : length (map f (firstn j snr)) = j).
  { rewrite length_map, length_firstn. fold U. lia. }
  rewrite <- Hlen at 1. apply set_nth_app.
Qed.

Lemma frow_skip (f : list R -> R) (j : nat) (row : list R) :
  nth_error snr j = Some row -> f row = 0 -> frow f (S j) = frow f j.
Proof.
  intros Hj H0.
  assert (HjU : (j < U)%nat) by (apply nth_error_Some; congruence).
  unfold frow. rewrite (firstn_succ _ _ _ Hj), map_app, <- app_assoc.
  replace (U - j)%nat with (S (U - S j)) by lia. simpl. now rewrite H0.
Qed.

Lemma frow_all (f : list R -> R) : frow f U = map f snr.
Proof.
  unfold frow, U. now rewrite firstn_all, Nat.sub_diag, app_nil_r.
Qed.

Lemma set_item2_frow (m : list (list R)) (ms j : nat) (f : list R -> R)
    (row : list R) :
  nth_error m ms = Some (frow f j) ->
  nth_error snr j = Some row ->
  set_item2 m ms j (f row) = Ok (set_nth ms (frow f (S j)) m).
Proof.
  intros Hm Hj.
  assert (HjU : (j < U)%nat) by (apply nth_error_Some; congruence).
  unfold set_item2. rewrite Hm, frow_length by lia.
  apply Nat.ltb_lt in HjU. rewrite HjU.
  now rewrite (frow_step f j row Hj).
Qed.

(** The loop over the users, for one threshold. *)
Lemma users_loop (ms : nat) (t : R) (k : nat) :
  forall (j : nat) (st : flex),
    (j + k <= U)%nat ->
    nth_error (rate_flex st) ms = Some (frow (fun row => rate_of row t) j) ->
    nth_error (n_configurations_flex st) ms
      = Some (frow (fun row => swept row t) j) ->
    for_range j k (sweep_user snr ms t) st
    = Ok (mkFlex
            (set_nth ms (frow (fun row => rate_of row t) (j + k))
                     (rate_flex st))
            (set_nth ms (frow (fun row => swept row t) (j + k))
                     (n_configurations_flex st))).
Proof.
  induction k as [|k IH]; intros j st Hk Hr Hc.
  - simpl. rewrite Nat.add_0_r, !set_nth_same by assumption.
    now destruct st.
  - assert (HjU : (j < U)%nat) by lia.
    destruct (nth_error snr j) as [row|] eqn:Hj.
    2:{ apply nth_error_None in Hj. fold U in Hj. lia. }
    simpl. unfold sweep_user at 1. unfold get_item. rewrite Hj. simpl bind.
    replace (j + S k)%nat with (S j + k)%nat by lia.
    destruct (sum_mask _ =? 0)%nat eqn:Hsum.
    + apply Nat.eqb_eq, sum_mask_zero in Hsum.
      assert (Hrate : rate_of row t = 0) by (unfold rate_of; now rewrite Hsum).
      assert (Hswept : swept row t = 0) by (unfold swept; now rewrite Hsum).
      apply IH; [lia | |].
      * now rewrite (frow_skip (fun row => rate_of row t) j row Hj Hrate).
      * now rewrite (frow_skip (fun row => swept row t) j row Hj Hswept).
    + apply Nat.eqb_neq in Hsum. rewrite sum_mask_zero in Hsum.
      destruct (first_true _) as [index|] eqn:Hft; [|congruence].
      rewrite (argmax_first_true _ _ Hft). simpl bind.
      assert (Hrate : rate_of row t = log2 (1 + t))
        by (unfold rate_of; now rewrite Hft).
      assert (Hswept : swept row t = INR (index + 1))
        by (unfold swept; now rewrite Hft).
      rewrite <- Hrate, <- Hswept.
      rewrite (set_item2_frow _ ms j (fun row => rate_of row t) row Hr Hj).
      simpl bind.
      rewrite (set_item2_frow _ ms j (fun row => swept row t) row Hc Hj).
      simpl bind.
      rewrite IH; simpl; try lia.
      * now rewrite !set_nth_twice.
      * apply (nth_error_set_nth _ _ _ _ Hr).
      * apply (nth_error_set_nth _ _ _ _ Hc).
Qed.

(** The loop over the thresholds. *)
Lemma thresholds_loop (range : list R) :
  forall (done : list R) (st : flex),
    rate_flex st
      = map (fun t => map (fun row => rate_of row t) snr) done
        ++ zeros2 (length range) U ->
    n_configurations_flex st
      = map (fun t => map (fun row => swept row t) snr) done
        ++ zeros2 (length range) U ->
    for_enumerate (length done) range
      (fun ms t => for_range 0 U (sweep_user snr ms t)) st
    = Ok (mkFlex
            (map (fun t => map (fun row => rate_of row t) snr) (done ++ range))
            (map (fun t => map (fun row => swept row t) snr) (done ++ range))).
Proof.
  induction range as [|t range IH]; intros done st Hr Hc.
  - simpl in *. rewrite app_nil_r in *. destruct st; simpl in *.
    now subst.
  - simpl for_enumerate.
    assert (Hz : forall f, repeat 0 U = frow f 0).
    { intros f. unfold frow. simpl. now rewrite Nat.sub_0_r. }
    assert (Hnth : forall (F : R -> list R),
               nth_error (map F done ++ zeros2 (length (t :: range)) U)
                         (length done)
               = Some (repeat 0 U)).
    { intros F. rewrite nth_error_app2 by (rewrite length_map; lia).
      now rewrite length_map, Nat.sub_diag. }
    rewrite (users_loop (length done) t U 0 st); try lia.
    2:{ rewrite Hr, <- Hz. apply Hnth. }
    2:{ rewrite Hc, <- Hz. apply Hnth. }
    simpl bind. rewrite Hr, Hc, !frow_all.
    assert (Hupd : forall (F : R -> list R),
               set_nth (length done) (F t)
                 (map F done ++ zeros2 (length (t :: range)) U)
               = map F (done ++ [t]) ++ zeros2 (length range) U).
    { intros F. unfold zeros2. cbn [length repeat].
      rewrite <- (length_map F done) at 1.
      rewrite set_nth_app, map_app, <- app_assoc. reflexivity. }
    rewrite (Hupd (fun t => map (fun row => rate_of row t) snr)).
    rewrite (Hupd (fun t => map (fun row => swept row t) snr)).
    replace (S (length done)) with (length (done ++ [t]))
      by (rewrite length_app; simpl; lia).
    rewrite IH; simpl; try reflexivity.
    now rewrite <- !app_assoc.
Qed.

Lemma beam_sweep_closed (range : list R) :
  beam_sweep U range snr
  = Ok (mkFlex (map (fun t => map (fun row => rate_of row t) snr) range)
               (map (fun t => map (fun row => swept row t) snr) range)).
Proof.
  unfold beam_sweep. apply (thresholds_loop range []); reflexivity.
Qed.
End BeamSweep.

Import Script.

Lemma item2_map (f : list R -> R -> R) (range : list R) (snr : list (list R))
    (ms uu : nat) :
  (ms < length range)%nat ->
  (uu < length snr)%nat ->
  item2 (map (fun t => map (fun row => f row t) snr) range) ms uu
  = f (nth uu snr []) (nth ms range 0).
Proof.
  intros Hms Huu. unfold item2.
  rewrite (nth_indep _ [] (map (fun row => f row 0) snr))
    by (rewrite length_map; exact Hms).
  rewrite (map_nth (fun t => map (fun row => f row t) snr) range 0 ms).
  rewrite (nth_indep _ 0 (f [] (nth ms range 0)))
    by (rewrite length_map; exact Huu).
  apply (map_nth (fun row => f row (nth ms range 0))).
Qed.

Lemma clearing_or_none (row : list R) (t : R) :
  (exists index, first_clearing row t index) \/ none_clearing row t.
Proof.
  destruct (first_true (map (fun s => Rgeb s t) row)) as [i|] eqn:Hft.
  - left. exists i. now apply first_true_clearing.
  - right. now apply first_true_none.
Qed.

(** C2: the search returns without an exception; for every user and every
    threshold it records, when some configuration's noisy SNR is at least the
    threshold, the first such index plus one as the number of configurations
    swept and [log2 (1 + threshold)] as the rate, and zero for both when no
    configuration clears the threshold. *)
Theorem beam_sweep_first_clearing (range : list R) (snr : list (list R)) :
  exists st,
    beam_sweep (length snr) range snr = Ok st
    /\ forall ms uu,
        (ms < length range)%nat ->
        (uu < length snr)%nat ->
        (forall index,
            first_clearing (nth uu snr []) (nth ms range 0) index ->
            item2 (n_configurations_flex st) ms uu = INR (index + 1)
            /\ item2 (rate_flex st) ms uu = log2 (1 + nth ms range 0))
        /\ (none_clearing (nth uu snr []) (nth ms range 0) ->
            item2 (n_configurations_flex st) ms uu = 0
            /\ item2 (rate_flex st) ms uu = 0).
Proof.
  eexists. split; [apply beam_sweep_closed|].
  intros ms uu Hms Huu. cbn [n_configurations_flex rate_flex].
  rewrite (item2_map swept), (item2_map rate_of) by assumption.
  unfold swept, rate_of. split.
  - intros index Hfirst. apply first_true_clearing in Hfirst.
    now rewrite Hfirst.
  - intros Hnone. apply first_true_none in Hnone. now rewrite Hnone.
Qed.

Lemma first_true_mono (row : list R) (t1 t2 : R) (i2 : nat) :
  t1 <= t2 ->
  first_true (map (fun s => Rgeb s t2) row) = Some i2 ->
  exists i1, first_true (map (fun s => Rgeb s t1) row) = Some i1
             /\ (i1 <= i2)%nat.
Proof.
  intros Ht. revert i2. induction row as [|s row IH]; intros i2; simpl.
  - discriminate.
  - destruct (Rgeb s t2) eqn:H2.
    + intros [= <-]. apply Rgeb_true in H2.
      assert (H1 : Rgeb s t1 = true) by (apply Rgeb_true; lra).
      rewrite H1. exists 0%nat. split; [reflexivity | lia].
    + destruct (first_true (map (fun s0 => Rgeb s0 t2) row)) as [j|];
        simpl; [|discriminate].
      intros [= <-]. destruct (IH j eq_refl) as (i1 & Hi1 & Hle).
      destruct (Rgeb s t1).
      * exists 0%nat. split; [reflexivity | lia].
      * rewrite Hi1. simpl. exists (S i1). split; [reflexivity | lia].
Qed.

(** C5, amended: for thresholds t1 <= t2 and a fixed noisy SNR of the user,
    the number of configurations recorded at t2 is at least the number
    recorded at t1 provided some configuration clears t2; when none does, the
    number recorded at t2 is 0. *)
Theorem sweep_count_monotone_when_cleared (range : list R)
    (snr : list (list R)) :
  exists st,
    beam_sweep (length snr) range snr = Ok st
    /\ forall ms1 ms2 uu,
        (ms1 < length range)%nat ->
        (ms2 < length range)%nat ->
        (uu < length snr)%nat ->
        nth ms1 range 0 <= nth ms2 range 0 ->
        (~ none_clearing (nth uu snr []) (nth ms2 range 0) ->
         item2 (n_configurations_flex st) ms1 uu
         <= item2 (n_configurations_flex st) ms2 uu)
        /\ (none_clearing (nth uu snr []) (nth ms2 range 0) ->
            item2 (n_configurations_flex st) ms2 uu = 0).
Proof.
  eexists. split; [apply beam_sweep_closed|].
  intros ms1 ms2 uu Hms1 Hms2 Huu Ht. cbn [n_configurations_flex].
  rewrite !(item2_map swept) by assumption.
  unfold swept. split.
  - intros Hsome. rewrite <- first_true_none in Hsome.
    destruct (first_true (map (fun s => Rgeb s (nth ms2 range 0)) _))
      as [i2|] eqn:H2; [|congruence].
    destruct (first_true_mono _ _ _ _ Ht H2) as (i1 & -> & Hle).
    apply le_INR. lia.
  - intros Hnone. apply first_true_none in Hnone. now rewrite Hnone.
Qed.

(** Decides the comparisons of a mask on numerals. *)
Ltac decide_mask :=
  repeat match goal with
         | |- context [Rgeb ?a ?b] =>
             let H := fresh "Hcmp" in
             first [ assert (H : Rgeb a b = true) by (apply Rgeb_true; lra)
                   | assert (H : Rgeb a b = false) by (apply Rgeb_false; lra) ];
             rewrite H; clear H
         | H0 : context [Rgeb ?a ?b] |- _ =>
             let H := fresh "Hcmp" in
             first [ assert (H : Rgeb a b = true) by (apply Rgeb_true; lra)
                   | assert (H : Rgeb a b = false) by (apply Rgeb_false; lra) ];
             rewrite H in H0; clear H
         end.

(** Two users, three configurations, thresholds 1 and 100: the first user
    clears 1 at the second configuration and 100 at the third, the second
    user clears neither. *)
Example beam_sweep_two_users :
  beam_sweep 2 [1; 100] [[0; 5; 200]; [0; 0; 1 / 2]]
  = Ok (mkFlex [[log2 (1 + 1); 0]; [log2 (1 + 100); 0]]
               [[2; 0]; [3; 0]]).
Proof.
  unfold beam_sweep, zeros2. simpl for_enumerate.
  unfold sweep_user, get_item. simpl. decide_mask. simpl.
  repeat f_equal; lra.
Qed.

Lemma beam_sweep_first_clearing_witness :
  exists st,
    beam_sweep 2 [1; 100] [[0; 5; 200]; [0; 0; 1 / 2]] = Ok st
    /\ (item2 (n_configurations_flex st) 1 0 = INR (2 + 1)
        /\ item2 (rate_flex st) 1 0 = log2 (1 + 100))
    /\ (item2 (n_configurations_flex st) 1 1 = 0
        /\ item2 (rate_flex st) 1 1 = 0).
Proof.
  destruct (beam_sweep_first_clearing [1; 100] [[0; 5; 200]; [0; 0; 1 / 2]])
    as (st & Hrun & Hcells).
  exists st. split; [exact Hrun|]. split.
  - apply (proj1 (Hcells 1%nat 0%nat ltac:(simpl; lia) ltac:(simpl; lia))).
    unfold first_clearing. simpl. repeat split; [lia | lra |].
    intros [|[|j]] Hj; simpl; try lra; lia.
  - apply (proj2 (Hcells 1%nat 1%nat ltac:(simpl; lia) ltac:(simpl; lia))).
    intros [|[|[|j]]] Hj; simpl in *; try lra; lia.
Defined.

(** C5 as stated fails: with one user of noisy SNR 5 on the only
    configuration, threshold 1 records one configuration swept and the larger
    threshold 10 records 0. *)
Lemma sweep_count_not_nondecreasing :
  ~ sweep_count_nondecreasing [1; 10] [[5]].
Proof.
  intros Hmono.
  specialize (Hmono _ 0%nat 1%nat 0%nat (beam_sweep_closed [[5]] [1; 10])).
  simpl in Hmono. unfold item2, swept in Hmono. simpl in Hmono.
  decide_mask. simpl in Hmono.
  assert (H : 1 <= 0) by (apply Hmono; lia || lra).
  lra.
Qed.

Lemma sweep_count_monotone_when_cleared_witness :
  exists st,
    beam_sweep 2 [1; 100] [[0; 5; 200]; [0; 0; 1 / 2]] = Ok st
    /\ item2 (n_configurations_flex st) 0 0
       <= item2 (n_configurations_flex st) 1 0
    /\ item2 (n_configurations_flex st) 1 1 = 0.
Proof.
  destruct (sweep_count_monotone_when_cleared
              [1; 100] [[0; 5; 200]; [0; 0; 1 / 2]])
    as (st & Hrun & Hcells).
  exists st. split; [exact Hrun|]. split.
  - apply (proj1 (Hcells 0%nat 1%nat 0%nat ltac:(simpl; lia) ltac:(simpl; lia)
                         ltac:(simpl; lia) ltac:(simpl; lra))).
    intros Hnone. apply (Hnone 2%nat); simpl; [lia | lra].
  - apply (proj2 (Hcells 0%nat 1%nat 1%nat ltac:(simpl; lia) ltac:(simpl; lia)
                         ltac:(simpl; lia) ltac:(simpl; lra))).
    intros [|[|[|j]]] Hj; simpl in *; try lra; lia.
Defined.

(** ** Rate accounting *)

Lemma zip_with_map_l {X A B D : Type} (f : A -> B -> D) (g : X -> A)
    (l : list X) (l' : list B) :
  zip_with f (map g l) l' = zip_with (fun a b => f (g a) b) l l'.
Proof.
  revert l'; induction l as [|a l IH]; intros [|b l']; simpl;
    try reflexivity.
  now rewrite IH.
Qed.

Lemma zip_with_map_r {X A B D : Type} (f : A -> B -> D) (g : X -> B)
    (l : list A) (l' : list X) :
  zip_with f l (map g l') = zip_with (fun a b => f a (g b)) l l'.
Proof.
  revert l'; induction l as [|a l IH]; intros [|b l']; simpl;
    try reflexivity.
  now rewrite IH.
Qed.

Lemma zip_with_ext {A B D : Type} (f g : A -> B -> D) (l : list A)
    (l' : list B) :
  (forall a b, f a b = g a b) -> zip_with f l l' = zip_with g l l'.
Proof.
  intros Hfg. revert l'; induction l as [|a l IH]; intros [|b l']; simpl;
    try reflexivity.
  now rewrite Hfg, IH.
Qed.

Lemma total_tau_pos : 0 < total_tau.
Proof. unfold total_tau, T, n_ttis. lra. Qed.

Lemma log2_2 : log2 (1 + 1) = 1.
Proof.
  unfold log2. replace (1 + 1) with 2 by lra.
  assert (0 < ln 2) by (rewrite <- ln_1; apply ln_increasing; lra).
  field. lra.
Qed.

(** C7 as stated fails: for a user whose search swept two configurations at
    threshold 1, under setup [ob-cc], the overhead charged is three periods
    and not two, and the rate is not the one the stated accounting gives. *)
Lemma rate_accounting_not_one_period_per_step :
  tau_alg [[2]] <> [[overhead_spec 2]]
  /\ rate_cb_bsw "ob-cc" (mkFlex [[log2 (1 + 1)]] [[2]])
     <> [[effective_rate_spec "ob-cc" 2 1]].
Proof.
  split.
  - unfold tau_alg, overhead_spec, T. simpl. intros [= H]. lra.
  - unfold rate_cb_bsw, prelog_term, tau_alg, effective_rate_spec,
      data_fraction_spec, overhead_spec, tau_setup, total_tau, T, n_ttis.
    simpl. rewrite log2_2. intros [= H]. lra.
Qed.

(** C7, amended: the overhead of [c] sweep steps is [(2 c - 1) T], the
    setup's signalling overhead is counted twice, the data fraction is what
    is left of the total coherence time, and the effective rate is that
    fraction times the recorded rate; the signalling overhead is [T], [2 T]
    and [3 T] for the three setups. *)
Theorem rate_cb_bsw_accounting (setup : string) (st : flex) :
  rate_cb_bsw setup st
  = zip_with
      (zip_with (fun c rate =>
                   (total_tau - ((2 * c - 1) * T + 2 * tau_setup setup))
                   / total_tau * rate))
      (n_configurations_flex st) (rate_flex st)
  /\ tau_setup "ob-cc" = T
  /\ tau_setup "ib-no" = 2 * T
  /\ tau_setup "ib-wf" = 3 * T.
Proof.
  split; [|repeat split].
  unfold rate_cb_bsw, prelog_term, tau_alg.
  rewrite map_map, zip_with_map_l. apply zip_with_ext. intros cs rs.
  rewrite map_map, zip_with_map_l. apply zip_with_ext. intros c r.
  pose proof total_tau_pos. field. lra.
Qed.

(** ** Pilot noise *)

Lemma sum_scaled (c : R) (l : list R) :
  fold_right Rplus 0 (map (fun v => c * v) l) = c * fold_right Rplus 0 l.
Proof. induction l as [|v l IH]; simpl; [ring | rewrite IH; ring]. Qed.

Lemma mean_scaled (c : R) (l : list R) :
  mean (map (fun v => c * v) l) = c * mean l.
Proof.
  unfold mean. rewrite sum_scaled, length_map. unfold Rdiv. ring.
Qed.

Lemma variance_scaled (c : R) (l : list R) :
  variance (map (fun v => c * v) l) = c ^ 2 * variance l.
Proof.
  unfold variance. rewrite mean_scaled, map_map.
  transitivity (mean (map (fun v => c ^ 2 * v)
                          (map (fun v => (v - mean l) ^ 2) l))).
  - rewrite map_map. f_equal. apply map_ext. intros v. ring.
  - apply mean_scaled.
Qed.

Lemma var_nonneg (noise_power : R) (k : nat) :
  0 <= noise_power -> (0 < k)%nat -> 0 <= var noise_power k.
Proof.
  intros Hp Hk. unfold var. apply lt_INR in Hk. simpl in Hk.
  apply Rmult_le_pos; [|lra].
  apply Rmult_le_pos; [assumption|].
  apply Rlt_le, Rinv_0_lt_compat. assumption.
Qed.

Lemma map_zip_with {A B D E : Type} (g : D -> E) (f : A -> B -> D)
    (l : list A) (l' : list B) :
  map g (zip_with f l l') = zip_with (fun a b => g (f a b)) l l'.
Proof.
  revert l'; induction l as [|a l IH]; intros [|b l']; simpl;
    try reflexivity.
  now rewrite IH.
Qed.

Lemma noise_pairs (re_draws im_draws : list (list R)) :
  noise_ re_draws im_draws = zip_with (zip_with pair) re_draws im_draws.
Proof.
  unfold noise_. apply zip_with_ext. intros res ims.
  apply zip_with_ext. intros a b.
  unfold Cadd, Cmul, Re, Im. simpl. f_equal; ring.
Qed.

(** C8: the noisy SNR is the squared modulus, over the noise power, of the
    scaled equivalent channel plus the draw multiplied by
    [sqrt (noise_power / num_pilots / 2)]; on every population of draws whose
    real and imaginary parts have unit variance, the real and the imaginary
    part of the added noise have variance [noise_power / (2 num_pilots)]. *)
Theorem bsw_noise_variance (tx noise_power : R) (k : nat)
    (h_eq : list (list C)) (re_draws im_draws : list (list R))
    (zs : list C) :
  0 <= noise_power ->
  (0 < k)%nat ->
  variance (map Re zs) = 1 ->
  variance (map Im zs) = 1 ->
  snr_cb_noisy tx noise_power k h_eq (noise_ re_draws im_draws)
  = zip_with
      (zip_with (fun h z =>
                   Cabs (Cadd (Cscale (sqrt tx) h)
                              (Cscale (sqrt (noise_power / INR k / 2)) z)) ^ 2
                   / noise_power))
      h_eq (zip_with (zip_with pair) re_draws im_draws)
  /\ variance (map (fun z => Re (Cscale (sqrt (var noise_power k)) z)) zs)
     = noise_power / (2 * INR k)
  /\ variance (map (fun z => Im (Cscale (sqrt (var noise_power k)) z)) zs)
     = noise_power / (2 * INR k).
Proof.
  intros Hp Hk Hre Him.
  assert (Hsq : sqrt (var noise_power k) ^ 2 = noise_power / (2 * INR k)).
  { rewrite pow2_sqrt by (apply var_nonneg; assumption).
    unfold var. apply lt_INR in Hk. simpl in Hk. field. lra. }
  split; [|split].
  - rewrite noise_pairs.
    unfold snr_cb_noisy, sig_pow_noisy_cb, bsw_noise_, var.
    rewrite zip_with_map_r, map_zip_with. apply zip_with_ext. intros hs ds.
    rewrite zip_with_map_r, map_zip_with. reflexivity.
  - rewrite <- Hsq, <- (Rmult_1_r (sqrt _ ^ 2)), <- Hre, <- variance_scaled.
    now rewrite map_map.
  - rewrite <- Hsq, <- (Rmult_1_r (sqrt _ ^ 2)), <- Him, <- variance_scaled.
    now rewrite map_map.
Qed.

Lemma bsw_noise_variance_witness :
  snr_cb_noisy 100 2 1 [[(1, 0)]] (noise_ [[1]] [[-1]])
  = zip_with
      (zip_with (fun h z =>
                   Cabs (Cadd (Cscale (sqrt 100) h)
                              (Cscale (sqrt (2 / INR 1 / 2)) z)) ^ 2
                   / 2))
      [[(1, 0)]] (zip_with (zip_with pair) [[1]] [[-1]])
  /\ variance (map (fun z => Re (Cscale (sqrt (var 2 1)) z)) [(1, 1); (-1, -1)])
     = 2 / (2 * INR 1)
  /\ variance (map (fun z => Im (Cscale (sqrt (var 2 1)) z)) [(1, 1); (-1, -1)])
     = 2 / (2 * INR 1).
Proof.
  apply (bsw_noise_variance 100 2 1 [[(1, 0)]] [[1]] [[-1]]
                            [(1, 1); (-1, -1)]).
  - lra.
  - lia.
  - unfold variance, mean, Re. simpl. lra.
  - unfold variance, mean, Im. simpl. lra.
Defined.

(** ** [ecdf] *)

Example ecdf_example_numpy :
  ecdf false [1; 1; 2; 3; 3; 3]%Z = Ok ([1; 2; 3]%Z, [2 # 6; 3 # 6; 6 # 6]%Q).
Proof. reflexivity. Qed.

Example ecdf_example_unsorted :
  ecdf true [3; 1; 3; 2; 1; 3]%Z = Ok ([1; 2; 3]%Z, [2 # 6; 3 # 6; 6 # 6]%Q).
Proof. reflexivity. Qed.

Example ecdf_example_empty : ecdf false (@nil Z) = Raise IndexError.
Proof. reflexivity. Qed.

Section EcdfFacts.
Context {A : Type} `{Ordered A}.

Lemma leb_refl (a : A) : leb a a = true.
Proof. now destruct (leb_total a a). Qed.

Lemma leb_false_flip (a b : A) : leb a b = false -> leb b a = true.
Proof. intros Hab. destruct (leb_total a b); congruence. Qed.

Lemma In_insert_unique (v x : A) (l : list A) :
  In x (insert_unique v l) <-> x = v \/ In x l.
Proof.
  induction l as [|h l IH]; simpl.
  - intuition.
  - destruct (leb v h) eqn:Hvh; [destruct (leb h v) eqn:Hhv|]; simpl.
    + assert (v = h) by (now apply leb_antisym). subst. intuition.
    + intuition.
    + rewrite IH. intuition.
Qed.

Lemma In_unique_values (x : A) (a : list A) :
  In x (unique_values a) <-> In x a.
Proof.
  induction a as [|v a IH]; simpl; [tauto|].
  rewrite In_insert_unique, IH. intuition.
Qed.

Lemma increasing_insert (v : A) (l : list A) :
  increasing l -> increasing (insert_unique v l).
Proof.
  induction l as [|h l IH]; intros Hl; simpl.
  - auto.
  - destruct (leb v h) eqn:Hvh; [destruct (leb h v) eqn:Hhv|].
    + exact Hl.
    + simpl. split; [split|]; assumption.
    + destruct Hl as [Hhead Htail]. specialize (IH Htail).
      assert (Hhv : leb h v = true) by now apply leb_false_flip.
      simpl. split; [|exact IH].
      destruct l as [|h' l]; simpl.
      * split; assumption.
      * destruct (leb v h') eqn:Hvh'; [destruct (leb h' v) eqn:Hh'v|].
        -- exact Hhead.
        -- split; assumption.
        -- exact Hhead.
Qed.

Lemma increasing_unique_values (a : list A) : increasing (unique_values a).
Proof.
  induction a as [|v a IH]; simpl; [exact I | now apply increasing_insert].
Qed.

(** In an increasing sequence every later entry is strictly above the
    first. *)
Lemma increasing_head (h : A) (l : list A) :
  increasing (h :: l) ->
  forall s, In s l -> leb h s = true /\ leb s h = false.
Proof.
  revert h; induction l as [|h' l IH]; intros h Hl s Hs; [destruct Hs|].
  destruct Hl as [[Hlt Hnle] Htail].
  destruct Hs as [<-|Hs]; [split; assumption|].
  destruct (IH h' Htail s Hs) as [Hle' Hnle'].
  split; [now apply (leb_trans h h' s)|].
  destruct (leb s h) eqn:Hsh; [|reflexivity].
  rewrite (leb_trans s h h' Hsh Hlt) in Hnle'. discriminate.
Qed.

(** The number of samples strictly below [v]. *)
Let count_lt (v : A) (a : list A) : nat :=
  length (filter (fun s => leb s v && negb (leb v s)) a).

Lemma filter_length_split (p q r : A -> bool) (a : list A) :
  (forall s, In s a ->
     ((if p s then 1 else 0) + (if q s then 1 else 0)
      = (if r s then 1 else 0))%nat) ->
  (length (filter p a) + length (filter q a) = length (filter r a))%nat.
Proof.
  induction a as [|s a IH]; intros Hs; [reflexivity|].
  pose proof (Hs s (or_introl eq_refl)) as Hhead.
  assert (Htail : (length (filter p a) + length (filter q a)
                   = length (filter r a))%nat).
  { apply IH. intros s' Hs'. apply Hs. now right. }
  simpl. destruct (p s), (q s), (r s); simpl in *; lia.
Qed.

Lemma filter_length_ext (p q : A -> bool) (a : list A) :
  (forall s, In s a -> p s = q s) ->
  length (filter p a) = length (filter q a).
Proof.
  induction a as [|s a IH]; intros Hs; [reflexivity|].
  simpl. rewrite (Hs s (or_introl eq_refl)).
  assert (Htail : length (filter p a) = length (filter q a)).
  { apply IH. intros s' Hs'. apply Hs. now right. }
  destruct (q s); simpl; now rewrite Htail.
Qed.

Lemma filter_length_none (p : A -> bool) (a : list A) :
  (forall s, In s a -> p s = false) -> length (filter p a) = 0%nat.
Proof.
  induction a as [|s a IH]; intros Hs; [reflexivity|].
  simpl. rewrite (Hs s (or_introl eq_refl)). apply IH.
  intros s' Hs'. apply Hs. now right.
Qed.

Lemma filter_length_all (p : A -> bool) (a : list A) :
  (forall s, In s a -> p s = true) -> length (filter p a) = length a.
Proof.
  induction a as [|s a IH]; intros Hs; [reflexivity|].
  simpl. rewrite (Hs s (or_introl eq_refl)). simpl. f_equal. apply IH.
  intros s' Hs'. apply Hs. now right.
Qed.

Lemma count_lt_plus_count (v : A) (a : list A) :
  (count_lt v a + count v a = count_le v a)%nat.
Proof.
  unfold count_lt, count, count_le, eqb. apply filter_length_split.
  intros s _. destruct (leb s v), (leb v s); reflexivity.
Qed.

Lemma cumsum_from_counts (a l : list A) :
  forall x,
    increasing (x :: l) ->
    (forall s, In s a -> leb x s = true -> In s (x :: l)) ->
    cumsum_from (count_lt x a) (map (fun v => count v a) (x :: l))
    = map (fun v => count_le v a) (x :: l).
Proof.
  induction l as [|x' l IH]; intros x Hinc Hcover.
  - simpl. now rewrite count_lt_plus_count.
  - cbn [map cumsum_from]. rewrite count_lt_plus_count. f_equal.
    destruct Hinc as [[Hlt Hnle] Htail].
    assert (Hnext : count_le x a = count_lt x' a).
    { unfold count_le, count_lt. apply filter_length_ext. intros s Hs.
      destruct (leb s x) eqn:Hsx.
      - rewrite (leb_trans s x x' Hsx Hlt).
        destruct (leb x' s) eqn:Hx's; [|reflexivity].
        rewrite (leb_trans x' s x Hx's Hsx) in Hnle. discriminate.
      - assert (Hxs : leb x s = true) by now apply leb_false_flip.
        destruct (Hcover s Hs Hxs) as [<-|[<-|Hin]].
        + rewrite leb_refl in Hsx. discriminate.
        + rewrite leb_refl. simpl. reflexivity.
        + destruct (increasing_head x' l Htail s Hin) as [Hle _].
          rewrite Hle. simpl. now rewrite andb_false_r. }
    rewrite Hnext. apply (IH x' Htail).
    intros s Hs Hx's.
    destruct (Hcover s Hs (leb_trans x x' s Hlt Hx's)) as [<-|Hin];
      [|exact Hin].
    rewrite Hx's in Hnle. discriminate.
Qed.

Lemma cumsum_counts (a : list A) :
  cumsum (map (fun v => count v a) (unique_values a))
  = map (fun v => count_le v a) (unique_values a).
Proof.
  pose proof (increasing_unique_values a) as Hinc.
  assert (Hcover : forall s, In s a -> In s (unique_values a))
    by (intros s; apply In_unique_values).
  destruct (unique_values a) as [|x l]; [reflexivity|].
  unfold cumsum.
  assert (H0 : count_lt x a = 0%nat).
  { unfold count_lt. apply filter_length_none. intros s Hs.
    destruct (Hcover s Hs) as [<-|Hin].
    - rewrite leb_refl. reflexivity.
    - destruct (increasing_head x l Hinc s Hin) as [Hle _].
      rewrite Hle. simpl. apply andb_false_r. }
  rewrite <- H0. apply cumsum_from_counts; [exact Hinc|].
  intros s Hs _. now apply Hcover.
Qed.

Lemma increasing_last (l : list A) (m : A) :
  increasing (l ++ [m]) -> forall s, In s (l ++ [m]) -> leb s m = true.
Proof.
  induction l as [|h l IH]; intros Hinc s Hs.
  - destruct Hs as [<-|[]]. apply leb_refl.
  - destruct Hs as [<-|Hs].
    + apply (increasing_head h (l ++ [m]) Hinc). apply in_or_app.
      right. now left.
    + apply IH; [|exact Hs]. simpl in Hinc. apply Hinc.
Qed.

Lemma ecdf_closed (has_asnumpy : bool) (a : list A) :
  a <> [] ->
  ecdf has_asnumpy a
  = Ok (unique_values a,
        map (fun v => ratio (length a) (count_le v a)) (unique_values a)).
Proof.
  intros Ha. unfold ecdf, unique. rewrite cumsum_counts.
  assert (Hne : unique_values a <> []).
  { destruct a as [|s a]; [congruence|]. intros Hnil.
    assert (Hin : In s (unique_values (s :: a)))
      by (apply In_unique_values; now left).
    rewrite Hnil in Hin. destruct Hin. }
  destruct (exists_last Hne) as (l & m & Hl).
  assert (Htotal : last_item (map (fun v => count_le v a) (unique_values a))
                   = Ok (length a)).
  { unfold last_item. rewrite Hl, map_app, rev_app_distr. simpl.
    f_equal. unfold count_le. apply filter_length_all. intros s Hs.
    apply (increasing_last l m).
    - rewrite <- Hl. apply increasing_unique_values.
    - rewrite <- Hl. now apply In_unique_values. }
  rewrite Htotal. simpl. rewrite map_map.
  destruct has_asnumpy; reflexivity.
Qed.
End EcdfFacts.

(** C9: on a non-empty array [ecdf] returns the sorted distinct values, each
    paired with the number of samples at most that value over the number of
    samples; on [1, 1, 2, 3, 3, 3] these are [1, 2, 3] and
    [2/6, 3/6, 6/6]; the call leaves the store of arrays as it found it. *)
Theorem ecdf_sorted_unique_cumulative {A : Type} `{Ordered A}
    (has_asnumpy : bool) (a : list A) (store : list (list A)) (r : nat) :
  (a <> [] ->
   ecdf has_asnumpy a
   = Ok (unique_values a,
         map (fun v => Z.of_nat (count_le v a) # Pos.of_nat (length a))
             (unique_values a))
   /\ increasing (unique_values a)
   /\ (forall v, In v (unique_values a) <-> In v a))
  /\ ecdf has_asnumpy [1; 1; 2; 3; 3; 3]%Z
     = Ok ([1; 2; 3]%Z, [2 # 6; 3 # 6; 6 # 6]%Q)
  /\ snd (ecdf_call has_asnumpy store r) = store.
Proof.
  split; [|split].
  - intros Ha. split; [|split].
    + apply ecdf_closed. exact Ha.
    + apply increasing_unique_values.
    + intros v. apply In_unique_values.
  - destruct has_asnumpy; reflexivity.
  - reflexivity.
Qed.

Lemma ecdf_sorted_unique_cumulative_witness :
  ecdf false [3; 1; 3; 2; 1; 3]%Z
  = Ok (unique_values [3; 1; 3; 2; 1; 3]%Z,
        map (fun v => Z.of_nat (count_le v [3; 1; 3; 2; 1; 3]%Z) # Pos.of_nat 6)
            (unique_values [3; 1; 3; 2; 1; 3]%Z))
  /\ increasing (unique_values [3; 1; 3; 2; 1; 3]%Z)
  /\ (forall v, In v (unique_values [3; 1; 3; 2; 1; 3]%Z)
                <-> In v [3; 1; 3; 2; 1; 3]%Z).
Proof.
  apply (proj1 (ecdf_sorted_unique_cumulative
                  false [3; 1; 3; 2; 1; 3]%Z [] 0%nat)).
  discriminate.
Defined.

(** ** The DFT codebook *)

Lemma Cexp_mj_mul (a b : R) :
  Cmul (Cexp_mj a) (Cexp_mj b) = Cexp_mj (a + b).
Proof.
  unfold Cmul, Cexp_mj, Re, Im. simpl. rewrite cos_plus, sin_plus.
  f_equal; ring.
Qed.

Lemma Cexp_mj_mul_conj (a b : R) :
  Cmul (Cexp_mj a) (Cconj (Cexp_mj b)) = Cexp_mj (a - b).
Proof.
  unfold Cmul, Cconj, Cexp_mj, Re, Im. simpl. rewrite cos_minus, sin_minus.
  f_equal; ring.
Qed.

Lemma Cpow_exp (t : R) (m : nat) : Cpow (Cexp_mj t) m = Cexp_mj (INR m * t).
Proof.
  induction m as [|m IH].
  - simpl. unfold Cexp_mj, C1. now rewrite Rmult_0_l, cos_0, sin_0, Ropp_0.
  - cbn [Cpow]. rewrite IH, Cexp_mj_mul, S_INR. f_equal. ring.
Qed.

Lemma cos_sin_turns (m : nat) :
  cos (INR m * (2 * PI)) = 1 /\ sin (INR m * (2 * PI)) = 0.
Proof.
  split.
  - replace (INR m * (2 * PI)) with (0 + 2 * INR m * PI) by ring.
    rewrite cos_period. apply cos_0.
  - replace (INR m * (2 * PI)) with (0 + 2 * INR m * PI) by ring.
    rewrite sin_period. apply sin_0.
Qed.

Lemma cos_lt_1 (t : R) : 0 < t < 2 * PI -> cos t < 1.
Proof.
  intros Ht. replace t with (2 * (t / 2)) by field.
  rewrite cos_2a_sin.
  assert (Hs : 0 < sin (t / 2)) by (apply sin_gt_0; lra).
  nra.
Qed.

(** The sum of the first [n] powers of [z]. *)
Lemma geometric_sum (z : C) (n : nat) :
  Cmul (Cadd z (-1, 0)) (Csum (map (Cpow z) (seq 0 n)))
  = Cadd (Cpow z n) (-1, 0).
Proof.
  induction n as [|n IH].
  - unfold Cmul, Cadd, Csum, C0, C1, Re, Im. simpl. f_equal; ring.
  - rewrite seq_S, map_app. simpl.
    assert (Happ : forall l a, Csum (l ++ [a]) = Cadd (Csum l) a).
    { intros l a. induction l as [|b l IHl]; simpl.
      - unfold Cadd, C0, Re, Im. simpl. destruct a. simpl. f_equal; ring.
      - rewrite IHl. unfold Cadd, Re, Im. simpl. f_equal; ring. }
    rewrite Happ.
    assert (Hdist : forall u v w, Cmul u (Cadd v w) = Cadd (Cmul u v) (Cmul u w)).
    { intros u v w. unfold Cmul, Cadd, Re, Im. simpl. f_equal; ring. }
    rewrite Hdist, IH. unfold Cmul, Cadd, Re, Im. simpl. f_equal; ring.
Qed.

Lemma Cmul_zero_r (u v : C) : Re u <> 0 -> Cmul u v = C0 -> v = C0.
Proof.
  destruct u as [a b], v as [c d]. unfold Cmul, C0, Re, Im. simpl.
  intros Ha [= H1 H2].
  assert (Hn : 0 < a * a + b * b) by nra.
  assert (Hc : (a * a + b * b) * c = 0).
  { replace ((a * a + b * b) * c)
      with (a * (a * c - b * d) + b * (a * d + b * c)) by ring.
    rewrite H1, H2. ring. }
  assert (Hd : (a * a + b * b) * d = 0).
  { replace ((a * a + b * b) * d)
      with (a * (a * d + b * c) - b * (a * c - b * d)) by ring.
    rewrite H1, H2. ring. }
  apply Rmult_integral in Hc, Hd.
  f_equal; lra.
Qed.

Lemma DFT_closed (N : nat) :
  DFT N
  = map (fun a => map (fun b => Cpow (fundamental_freq N) (b * a)) (seq 0 N))
        (seq 0 N).
Proof.
  unfold DFT, meshgrid. rewrite zip_with_map_same. apply map_ext. intros a.
  rewrite <- (map_id (seq 0 N)) at 1. now rewrite zip_with_map_same.
Qed.

Lemma nth_map_seq {X : Type} (F : nat -> X) (N j : nat) (d : X) :
  (j < N)%nat -> nth j (map F (seq 0 N)) d = F j.
Proof.
  intros Hj. rewrite (nth_indep _ d (F 0%nat))
    by (now rewrite length_map, length_seq).
  rewrite (map_nth F (seq 0 N) 0%nat j), seq_nth by exact Hj. reflexivity.
Qed.

Lemma DFT_norm_row (N j : nat) :
  (j < N)%nat ->
  nth j (DFT_norm N) []
  = map (fun k => Cdivr (Cexp_mj (INR (k * j) * (2 * PI / INR N)))
                        (sqrt (INR N)))
        (seq 0 N).
Proof.
  intros Hj. unfold DFT_norm. rewrite DFT_closed, map_map.
  rewrite nth_map_seq by exact Hj. rewrite map_map.
  apply map_ext. intros k. unfold fundamental_freq. now rewrite Cpow_exp.
Qed.

Lemma Csum_scaled {X : Type} (c : R) (g : X -> C) (l : list X) :
  Csum (map (fun k => Cscale c (g k)) l) = Cscale c (Csum (map g l)).
Proof.
  induction l as [|k l IH]; simpl.
  - unfold Cscale, C0, Re, Im. simpl. f_equal; ring.
  - rewrite IH. unfold Cadd, Cscale, Re, Im. simpl. f_equal; ring.
Qed.

Lemma entry_product (N : nat) (a b : R) :
  (0 < N)%nat ->
  Cmul (Cdivr (Cexp_mj a) (sqrt (INR N)))
       (Cconj (Cdivr (Cexp_mj b) (sqrt (INR N))))
  = Cscale (/ INR N) (Cexp_mj (a - b)).
Proof.
  intros HN. apply lt_INR in HN. simpl in HN.
  assert (Hs : sqrt (INR N) * sqrt (INR N) = INR N) by (apply sqrt_sqrt; lra).
  assert (Hs0 : sqrt (INR N) <> 0) by (intros H0; rewrite H0 in Hs; lra).
  assert (Hinv : / sqrt (INR N) * / sqrt (INR N) = / INR N).
  { rewrite <- Rinv_mult. now rewrite Hs. }
  rewrite <- Cexp_mj_mul_conj, <- Hinv.
  unfold Cmul, Cconj, Cdivr, Cscale, Cexp_mj, Re, Im, Rdiv. simpl.
  f_equal; ring.
Qed.

Lemma inner_rows (N j j' : nat) :
  (j < N)%nat ->
  (j' < N)%nat ->
  inner (nth j (DFT_norm N) []) (nth j' (DFT_norm N) [])
  = Cscale (/ INR N)
      (Csum (map (Cpow (Cexp_mj ((INR j - INR j') * (2 * PI / INR N))))
                 (seq 0 N))).
Proof.
  intros Hj Hj'. unfold inner.
  rewrite !DFT_norm_row, zip_with_map_same by assumption.
  rewrite <- Csum_scaled. f_equal. apply map_ext. intros k.
  rewrite entry_product by lia. rewrite Cpow_exp, !mult_INR.
  do 2 f_equal. ring.
Qed.

Lemma full_turns (N j j' : nat) :
  (0 < N)%nat ->
  Cpow (Cexp_mj ((INR j - INR j') * (2 * PI / INR N))) N = C1.
Proof.
  intros HN. apply lt_INR in HN. simpl in HN.
  rewrite Cpow_exp.
  replace (INR N * ((INR j - INR j') * (2 * PI / INR N)))
    with (INR j * (2 * PI) - INR j' * (2 * PI)) by (field; lra).
  destruct (cos_sin_turns j) as [Hc Hs], (cos_sin_turns j') as [Hc' Hs'].
  unfold Cexp_mj, C1. rewrite cos_minus, sin_minus, Hc, Hs, Hc', Hs'.
  f_equal; ring.
Qed.

Lemma off_turn (N j j' : nat) :
  (j < N)%nat ->
  (j' < N)%nat ->
  j <> j' ->
  cos ((INR j - INR j') * (2 * PI / INR N)) < 1.
Proof.
  intros Hj Hj' Hne.
  assert (HN : 0 < INR N) by (apply lt_0_INR; lia).
  pose proof PI_RGT_0 as Hpi.
  assert (Hturn : forall d, 0 < d < INR N -> cos (d * (2 * PI / INR N)) < 1).
  { intros d Hd. apply cos_lt_1.
    assert (Hfrac : 0 < d / INR N < 1).
    { split.
      - apply Rdiv_lt_0_compat; lra.
      - apply (Rmult_lt_reg_r (INR N)); [lra|].
        replace (d / INR N * INR N) with d by (field; lra). lra. }
    replace (d * (2 * PI / INR N)) with (d / INR N * (2 * PI))
      by (field; lra).
    nra. }
  apply lt_INR in Hj, Hj'.
  destruct (Nat.lt_total j j') as [Hlt|[Heq|Hgt]]; [|contradiction|].
  - apply lt_INR in Hlt. rewrite <- cos_neg.
    replace (- ((INR j - INR j') * (2 * PI / INR N)))
      with ((INR j' - INR j) * (2 * PI / INR N)) by (field; lra).
    apply Hturn. pose proof (pos_INR j). lra.
  - apply lt_INR in Hgt. apply Hturn. pose proof (pos_INR j'). lra.
Qed.

Lemma ones_sum {X : Type} (c : R) (l : list X) :
  fold_right Rplus 0 (map (fun _ => c) l) = INR (length l) * c.
Proof.
  induction l as [|k l IH]; [simpl; ring|].
  cbn [map fold_right length]. rewrite IH, S_INR. ring.
Qed.

(** C4: the codebook has entry (j, k) equal to [exp(-2 pi i / N) ^ (j k)]
    over [sqrt N]; every row has squared norm 1 and inner product 1 with
    itself, and two distinct rows have inner product 0. *)
Theorem DFT_norm_rows_orthonormal (N j j' k : nat) :
  (j < N)%nat ->
  (j' < N)%nat ->
  (k < N)%nat ->
  nth k (nth j (DFT_norm N) []) C0
  = Cdivr (Cpow (fundamental_freq N) (j * k)) (sqrt (INR N))
  /\ norm2 (nth j (DFT_norm N) []) = 1
  /\ inner (nth j (DFT_norm N) []) (nth j (DFT_norm N) []) = C1
  /\ (j <> j' ->
      inner (nth j (DFT_norm N) []) (nth j' (DFT_norm N) []) = C0).
Proof.
  intros Hj Hj' Hk.
  assert (HN : 0 < INR N) by (apply lt_0_INR; lia).
  split; [|split; [|split]].
  - rewrite DFT_norm_row, nth_map_seq by assumption.
    unfold fundamental_freq. rewrite Cpow_exp. now rewrite Nat.mul_comm.
  - unfold norm2. rewrite DFT_norm_row, map_map by assumption.
    rewrite (map_ext _ (fun _ => / INR N)).
    + rewrite ones_sum, length_seq. field. lra.
    + intros i. unfold Cabs.
      rewrite pow2_sqrt by nra.
      assert (Hs : sqrt (INR N) * sqrt (INR N) = INR N)
        by (apply sqrt_sqrt; lra).
      assert (Hs0 : sqrt (INR N) <> 0) by (intros H0; rewrite H0 in Hs; lra).
      unfold Cdivr, Cexp_mj, Re, Im. simpl.
      pose proof (sin2_cos2 (INR (i * j) * (2 * PI / INR N))) as Hsc.
      unfold Rsqr in Hsc.
      replace (cos (INR (i * j) * (2 * PI / INR N)) / sqrt (INR N)
               * (cos (INR (i * j) * (2 * PI / INR N)) / sqrt (INR N))
               + - sin (INR (i * j) * (2 * PI / INR N)) / sqrt (INR N)
                 * (- sin (INR (i * j) * (2 * PI / INR N)) / sqrt (INR N)))
        with ((sin (INR (i * j) * (2 * PI / INR N))
               * sin (INR (i * j) * (2 * PI / INR N))
               + cos (INR (i * j) * (2 * PI / INR N))
                 * cos (INR (i * j) * (2 * PI / INR N)))
              / (sqrt (INR N) * sqrt (INR N)))
        by (field; exact Hs0).
      rewrite Hsc, Hs. field. lra.
  - rewrite inner_rows by assumption.
    rewrite (map_ext _ (fun _ => C1)).
    + assert (Hones : forall l : list nat,
                 Csum (map (fun _ => C1) l) = (INR (length l), 0)).
      { induction l as [|i l IH]; [reflexivity|].
        cbn [map Csum fold_right length]. fold (Csum (map (fun _ => C1) l)).
        rewrite IH, S_INR. unfold Cadd, C1, Re, Im. simpl. f_equal; ring. }
      rewrite Hones, length_seq. unfold Cscale, C1, Re, Im. simpl.
      f_equal; field; lra.
    + intros i. rewrite Cpow_exp, Rminus_diag, Rmult_0_l, Rmult_0_r.
      unfold Cexp_mj, C1. now rewrite cos_0, sin_0, Ropp_0.
  - intros Hne. rewrite inner_rows by assumption.
    pose proof (geometric_sum
                  (Cexp_mj ((INR j - INR j') * (2 * PI / INR N))) N) as Hgeo.
    rewrite full_turns in Hgeo by lia.
    replace (Cadd C1 (-1, 0)) with C0 in Hgeo
      by (unfold Cadd, C1, C0, Re, Im; simpl; f_equal; ring).
    apply Cmul_zero_r in Hgeo.
    + rewrite Hgeo. unfold Cscale, C0, Re, Im. simpl. f_equal; ring.
    + pose proof (off_turn N j j' Hj Hj' Hne) as Hcos.
      unfold Cadd, Cexp_mj, Re. simpl. lra.
Qed.

Lemma DFT_norm_rows_orthonormal_witness :
  nth 2 (nth 1 (DFT_norm 4) []) C0
  = Cdivr (Cpow (fundamental_freq 4) (1 * 2)) (sqrt (INR 4))
  /\ norm2 (nth 1 (DFT_norm 4) []) = 1
  /\ inner (nth 1 (DFT_norm 4) []) (nth 1 (DFT_norm 4) []) = C1
  /\ inner (nth 1 (DFT_norm 4) []) (nth 3 (DFT_norm 4) []) = C0.
Proof.
  destruct (DFT_norm_rows_orthonormal 4 1 3 2) as (He & Hn & Hi & Ho);
    [lia | lia | lia |].
  repeat split; try assumption. apply Ho. lia.
Defined.


(** * Further properties of the code *)

(** ** The constructor's geometry *)

Lemma fold_left_Rmax_ge (l : list R) (h : R) :
  h <= fold_left Rmax l h /\ forall v, In v l -> v <= fold_left Rmax l h.
Proof.
  revert h; induction l as [|a l IH]; intros h; simpl.
  - split; [lra | tauto].
  - destruct (IH (Rmax h a)) as [Hh Hl].
    pose proof (Rmax_l h a). pose proof (Rmax_r h a).
    split; [lra|]. intros v [<-|Hv]; [lra | now apply Hl].
Qed.

Lemma np_max_ge (l : list R) (m : R) :
  np_max l = Ok m -> forall v, In v l -> v <= m.
Proof.
  destruct l as [|h t]; [discriminate|]. intros [= <-] v Hv.
  destruct (fold_left_Rmax_ge t h) as [Hh Ht].
  destruct Hv as [<-|Hv]; [exact Hh | now apply Ht].
Qed.

Lemma In_entries (x : list vec3) (a b c : R) :
  In (a, b, c) x -> In a (entries x) /\ In b (entries x) /\ In c (entries x).
Proof.
  intros Hin. unfold entries. rewrite !in_flat_map.
  repeat split; exists (a, b, c); (split; [exact Hin | simpl; tauto]).
Qed.

Lemma In_hstack3 (x y z : list R) (a b c : R) :
  In (a, b, c) (hstack3 x y z) -> In a x /\ In b y /\ In c z.
Proof.
  unfold hstack3. rewrite map_id. intros Hin.
  pose proof (in_combine_l _ _ _ _ Hin) as Hab.
  pose proof (in_combine_r _ _ _ _ Hin) as Hc.
  pose proof (in_combine_l _ _ _ _ Hab).
  pose proof (in_combine_r _ _ _ _ Hab). tauto.
Qed.

(** The constructor raises on an empty array of base-station positions. *)
Example init_sides_no_bs : init_sides 20 [] = Raise ValueError.
Proof. reflexivity. Qed.

(** X1: the room the constructor builds contains what it places: with a positive
    [side] and draws in [0, 1), every user has [x] in [-side/2, side/2), [y]
    in [0, side) and [z] in (-side, 0], so every coordinate of every user is
    within [-max_pos, max_pos]; [max_pos] is at least [side] and at least
    every coordinate of every base-station position. *)
Theorem init_users_in_room (side : R) (bs_position : list vec3)
    (rx ry rz : list R) (max_pos : R) :
  0 < side ->
  Forall unit_draw rx -> Forall unit_draw ry -> Forall unit_draw rz ->
  init_max_pos side bs_position = Ok max_pos ->
  side <= max_pos
  /\ (forall v, In v (entries bs_position) -> v <= max_pos)
  /\ init_sides side bs_position
     = Ok (2 * max_pos, 2 * max_pos, 2 * max_pos)
  /\ forall x y z,
      In (x, y, z) (init_ue_position side rx ry rz) ->
      (- side / 2 <= x < side / 2 /\ 0 <= y < side /\ - side < z <= 0)
      /\ (- max_pos <= x <= max_pos /\ - max_pos <= y <= max_pos
          /\ - max_pos <= z <= max_pos).
Proof.
  intros Hside Hx Hy Hz Hmax. unfold init_sides. rewrite Hmax.
  unfold init_max_pos in Hmax.
  destruct (np_max (entries bs_position)) as [m|] eqn:Hm; [|discriminate].
  simpl in Hmax. injection Hmax as <-.
  pose proof (Rmax_l side m) as Hl. pose proof (Rmax_r side m) as Hr.
  split; [exact Hl|]. split.
  { intros v Hv. pose proof (np_max_ge _ _ Hm v Hv). lra. }
  split; [reflexivity|].
  intros x y z Hin. unfold init_ue_position in Hin.
  apply In_hstack3 in Hin as (Hinx & Hiny & Hinz).
  apply in_map_iff in Hinx as (ux & <- & Hux).
  apply in_map_iff in Hiny as (uy & <- & Huy).
  apply in_map_iff in Hinz as (uz & <- & Huz).
  rewrite Forall_forall in Hx, Hy, Hz.
  pose proof (Hx ux Hux) as Hux1. pose proof (Hy uy Huy) as Huy1.
  pose proof (Hz uz Huz) as Huz1. unfold unit_draw in *.
  assert (0 <= side * ux < side) by nra.
  assert (0 <= side * uy < side) by nra.
  assert (0 <= side * uz < side) by nra.
  repeat split; lra.
Qed.

Lemma init_users_in_room_witness :
  20 <= 20
  /\ (forall v, In v (entries [(20, 5, 5)]) -> v <= 20)
  /\ init_sides 20 [(20, 5, 5)] = Ok (2 * 20, 2 * 20, 2 * 20)
  /\ forall x y z,
      In (x, y, z) (init_ue_position 20 [0; 1 / 2] [1 / 4; 0] [0; 3 / 4]) ->
      (- 20 / 2 <= x < 20 / 2 /\ 0 <= y < 20 /\ - 20 < z <= 0)
      /\ (- 20 <= x <= 20 /\ - 20 <= y <= 20 /\ - 20 <= z <= 20).
Proof.
  apply (init_users_in_room 20 [(20, 5, 5)] [0; 1 / 2] [1 / 4; 0]
           [0; 3 / 4] 20).
  - lra.
  - repeat constructor; unfold unit_draw; lra.
  - repeat constructor; unfold unit_draw; lra.
  - repeat constructor; unfold unit_draw; lra.
  - unfold init_max_pos, np_max, entries.
    cbn [flat_map app fold_left bind].
    rewrite (Rmax_left 20 5) by lra. rewrite (Rmax_left 20 5) by lra.
    rewrite (Rmax_left 20 20) by lra. reflexivity.
Defined.

(** ** The command line *)


(** ** The users the script drops *)

(** X3: with a positive [cube_length] and draws in [0, 1), every user the script
    drops has [x] in [-L, 0), [y] in [0, L/2) and [z] in [-L/2, L/2). *)
Theorem script_users_in_cube (L : R) (rx ry rz : list R) :
  0 < L ->
  Forall unit_draw rx -> Forall unit_draw ry -> Forall unit_draw rz ->
  Forall (fun p : vec3 =>
            let '(x, y, z) := p in
            - L <= x < 0 /\ 0 <= y < L / 2 /\ - L / 2 <= z < L / 2)
         (ScriptMain.ue_pos L rx ry rz).
Proof.
  intros HL Hx Hy Hz. apply Forall_forall. intros [[x y] z] Hin.
  unfold ScriptMain.ue_pos in Hin.
  apply In_hstack3 in Hin as (Hinx & Hiny & Hinz).
  apply in_map_iff in Hinx as (ux & <- & Hux).
  apply in_map_iff in Hiny as (uy & <- & Huy).
  apply in_map_iff in Hinz as (uz & <- & Huz).
  rewrite Forall_forall in Hx, Hy, Hz.
  pose proof (Hx ux Hux) as Hux1. pose proof (Hy uy Huy) as Huy1.
  pose proof (Hz uz Huz) as Huz1. unfold unit_draw in *.
  assert (0 <= L * ux < L) by nra.
  assert (0 <= L * uy < L) by nra.
  assert (0 <= L * uz < L) by nra.
  repeat split; lra.
Qed.

Lemma script_users_in_cube_witness :
  Forall (fun p : vec3 =>
            let '(x, y, z) := p in
            - 20 <= x < 0 /\ 0 <= y < 20 / 2 /\ - 20 / 2 <= z < 20 / 2)
         (ScriptMain.ue_pos 20 [0; 1 / 2] [1 / 4; 0] [0; 3 / 4]).
Proof.
  apply (script_users_in_cube 20 [0; 1 / 2] [1 / 4; 0] [0; 3 / 4]).
  - lra.
  - repeat constructor; unfold unit_draw; lra.
  - repeat constructor; unfold unit_draw; lra.
  - repeat constructor; unfold unit_draw; lra.
Defined.

(** ** [pointing], for every lobe *)

Lemma combine_map_same {X A B : Type} (f : X -> A) (g : X -> B) (l : list X) :
  combine (map f l) (map g l) = map (fun v => (f v, g v)) l.
Proof. induction l as [|v l IH]; simpl; [reflexivity | now rewrite IH]. Qed.

(** The direction cosines of lobe [k]. *)
Lemma pointing_closed (e : RisProtocolEnv) (azimuth elevation : R)
    (k_max : nat) :
  pointing e azimuth elevation k_max
  = map (fun k : nat =>
           let x := INR k * 2 * wavelength e / sqrt (INR (ris_num_els_h e))
                    / ris_dist_els_h e + cos azimuth * sin elevation in
           let y := INR k * 2 * wavelength e / sqrt (INR (ris_num_els_h e))
                    / ris_dist_els_h e + sin azimuth * sin elevation in
           let z := sqrt (1 - x ^ 2 - y ^ 2) in
           (z_size e / z * x, z_size e / z * y, z_size e / z * z))
        (seq 0 k_max).
Proof.
  unfold pointing. rewrite !map_map, combine_map_same, map_map.
  rewrite combine_map_same, map_map. reflexivity.
Qed.



(** X5: asking for more lobes only appends points: the first [k] points are the
    same whatever larger [k_max] is given, and in particular the main lobe is
    the point returned for [k_max = 1]. *)
Theorem pointing_more_lobes (e : RisProtocolEnv) (azimuth elevation : R)
    (k m : nat) :
  firstn k (pointing e azimuth elevation (k + m))
  = pointing e azimuth elevation k.
Proof.
  assert (Hseq : firstn k (seq 0 (k + m)) = seq 0 k).
  { rewrite seq_app, firstn_app, length_seq, Nat.sub_diag, firstn_O, app_nil_r.
    apply firstn_all2. rewrite length_seq. lia. }
  now rewrite !pointing_closed, firstn_map, Hseq.
Qed.

(** ** [pos2beta] as a power law *)

Lemma ln_10_pos : 0 < ln 10.
Proof. rewrite <- ln_1. apply ln_increasing; lra. Qed.

(** The part of the path loss that does not depend on the point, on the
    linear scale. *)
Lemma pos2beta_power_law_aux (e : RisProtocolEnv) (p : vec3) :
  pos2beta_row e p
  = exp (- pl_exponent e * ln (dist_br e * norm p))
    * Rpower 10 ((bs_gain e + ue_gain e) / 10
                 + 4 * log10 (wavelength e / 4 / PI / ref_dist e)
                 + 2 * pl_exponent e * log10 (ref_dist e)).
Proof.
  pose proof ln_10_pos as H10.
  unfold pos2beta_row, Rpower, log10. rewrite <- exp_plus. f_equal.
  field. lra.
Qed.

(** X6: for a point off the origin and a positive BS-RIS distance, the gain is
    [(dist_br * |x|) ^ (- pl_exponent)] times a positive factor that is the
    same for all points; the gain is positive. *)
Theorem pos2beta_power_law (e : RisProtocolEnv) (p : vec3) :
  0 < dist_br e * norm p ->
  pos2beta_row e p
  = Rpower (dist_br e * norm p) (- pl_exponent e)
    * Rpower 10 ((bs_gain e + ue_gain e) / 10
                 + 4 * log10 (wavelength e / 4 / PI / ref_dist e)
                 + 2 * pl_exponent e * log10 (ref_dist e))
  /\ 0 < pos2beta_row e p.
Proof.
  intros _. split.
  - apply pos2beta_power_law_aux.
  - unfold pos2beta_row, Rpower. apply exp_pos.
Qed.

(** X7: of two points off the origin, the one farther from it has the smaller or
    equal gain, for a positive BS-RIS distance and a path-loss exponent that
    is not negative. *)
Theorem pos2beta_decreasing (e : RisProtocolEnv) (p q : vec3) :
  0 < dist_br e ->
  0 <= pl_exponent e ->
  0 < norm p <= norm q ->
  pos2beta e [p; q] = [pos2beta_row e p; pos2beta_row e q]
  /\ pos2beta_row e q <= pos2beta_row e p.
Proof.
  intros Hd Hn [Hp Hpq]. split; [reflexivity|].
  pose proof ln_10_pos as H10.
  assert (Hln : ln (dist_br e * norm p) <= ln (dist_br e * norm q)).
  { destruct Hpq as [Hlt|Heq]; [|rewrite Heq; lra].
    apply Rlt_le, ln_increasing; nra. }
  unfold pos2beta_row. apply Rle_Rpower; [lra|].
  unfold log10.
  assert (Hm : pl_exponent e * (ln (dist_br e * norm p) / ln 10)
               <= pl_exponent e * (ln (dist_br e * norm q) / ln 10)).
  { apply Rmult_le_compat_l; [exact Hn|].
    apply Rmult_le_compat_r; [|exact Hln].
    apply Rlt_le, Rinv_0_lt_compat, H10. }
  lra.
Qed.

Lemma pos2beta_decreasing_witness :
  pos2beta example_env [(0, 3, 4); (0, 6, 8)]
  = [pos2beta_row example_env (0, 3, 4); pos2beta_row example_env (0, 6, 8)]
  /\ pos2beta_row example_env (0, 6, 8) <= pos2beta_row example_env (0, 3, 4).
Proof.
  apply (pos2beta_decreasing example_env (0, 3, 4) (0, 6, 8)).
  - simpl. lra.
  - simpl. lra.
  - unfold norm.
    replace (0 * 0 + 3 * 3 + 4 * 4) with (5 * 5) by lra.
    replace (0 * 0 + 6 * 6 + 8 * 8) with (10 * 10) by lra.
    rewrite !sqrt_square by lra. lra.
Defined.

Lemma pos2beta_power_law_witness :
  pos2beta_row example_env (0, 3, 4)
  = Rpower (dist_br example_env * norm (0, 3, 4)) (- pl_exponent example_env)
    * Rpower 10 ((bs_gain example_env + ue_gain example_env) / 10
                 + 4 * log10 (wavelength example_env / 4 / PI
                              / ref_dist example_env)
                 + 2 * pl_exponent example_env * log10 (ref_dist example_env))
  /\ 0 < pos2beta_row example_env (0, 3, 4).
Proof.
  apply (pos2beta_power_law example_env (0, 3, 4)).
  unfold norm. replace (0 * 0 + 3 * 3 + 4 * 4) with (5 * 5) by lra.
  rewrite sqrt_square by lra. simpl. lra.
Defined.

(** ** The range of the array-factor gain *)

Lemma Cabs_nonneg (z : C) : 0 <= Cabs z.
Proof. apply sqrt_pos. Qed.

Lemma Cabs_sqr (z : C) : Cabs z * Cabs z = Re z * Re z + Im z * Im z.
Proof. unfold Cabs. apply sqrt_sqrt. nra. Qed.

Lemma Cabs_triangle (a b : C) : Cabs (Cadd a b) <= Cabs a + Cabs b.
Proof.
  pose proof (Cabs_nonneg a) as Ha. pose proof (Cabs_nonneg b) as Hb.
  pose proof (Cabs_sqr a) as Hsa. pose proof (Cabs_sqr b) as Hsb.
  destruct a as [a1 a2], b as [b1 b2]. unfold Re, Im in *. simpl in *.
  assert (Hcs : a1 * b1 + a2 * b2 <= Cabs (a1, a2) * Cabs (b1, b2)).
  { destruct (Rle_dec (a1 * b1 + a2 * b2) 0) as [Hneg|Hpos].
    - pose proof (Rmult_le_pos _ _ Ha Hb). lra.
    - apply Rnot_le_lt in Hpos.
      apply Rsqr_incr_0_var; [|apply Rmult_le_pos; assumption].
      unfold Rsqr.
      replace (Cabs (a1, a2) * Cabs (b1, b2) * (Cabs (a1, a2) * Cabs (b1, b2)))
        with ((Cabs (a1, a2) * Cabs (a1, a2)) * (Cabs (b1, b2) * Cabs (b1, b2)))
        by ring.
      rewrite Hsa, Hsb.
      pose proof (Rle_0_sqr (a1 * b2 - a2 * b1)) as Hsq. unfold Rsqr in Hsq.
      nra. }
  apply Rsqr_incr_0_var; [|lra].
  unfold Rsqr.
  replace (Cabs (Cadd (a1, a2) (b1, b2)) * Cabs (Cadd (a1, a2) (b1, b2)))
    with ((a1 + b1) * (a1 + b1) + (a2 + b2) * (a2 + b2))
    by (rewrite Cabs_sqr; reflexivity).
  nra.
Qed.

Lemma Cabs_Cmul (a b : C) : Cabs (Cmul a b) = Cabs a * Cabs b.
Proof.
  unfold Cabs. rewrite <- sqrt_mult by nra. f_equal.
  unfold Cmul, Re, Im. simpl. ring.
Qed.

Lemma Cabs_Cexp_mj (t : R) : Cabs (Cexp_mj t) = 1.
Proof.
  unfold Cabs, Cexp_mj, Re, Im. simpl.
  pose proof (sin2_cos2 t) as H. unfold Rsqr in H.
  replace (cos t * cos t + - sin t * - sin t) with 1 by lra.
  apply sqrt_1.
Qed.

Lemma Cabs_Csum_le {X : Type} (g : X -> C) (l : list X) :
  (forall v, In v l -> Cabs (g v) = 1) ->
  Cabs (Csum (map g l)) <= INR (length l).
Proof.
  induction l as [|v l IH]; intros Hl.
  - simpl. unfold Cabs, C0, Re, Im. simpl.
    replace (0 * 0 + 0 * 0) with 0 by ring. rewrite sqrt_0. lra.
  - cbn [map Csum fold_right length]. fold (Csum (map g l)).
    rewrite S_INR.
    pose proof (Cabs_triangle (g v) (Csum (map g l))) as Ht.
    rewrite (Hl v (or_introl eq_refl)) in Ht.
    assert (Cabs (Csum (map g l)) <= INR (length l)).
    { apply IH. intros w Hw. apply Hl. now right. }
    lra.
Qed.

Lemma af_gain_point_range (e : RisProtocolEnv) (f : R) (dv : R * vec3) :
  Forall (fun w => Cabs w = 1) (ris_actual_conf e) ->
  length (ris_actual_conf e) = ris_num_els e ->
  ris_el_pos e <> [] ->
  0 <= af_gain_point e f dv <= 1.
Proof.
  intros Hunit Hlen Hne. unfold af_gain_point.
  set (terms := map _ (combine (ris_actual_conf e) (ris_el_pos e))).
  assert (HN : 0 < INR (ris_num_els e)).
  { apply lt_0_INR. unfold ris_num_els.
    destruct (ris_el_pos e); [congruence | simpl; lia]. }
  assert (Hsum : Cabs (Csum terms) <= INR (ris_num_els e)).
  { unfold terms.
    replace (ris_num_els e)
      with (length (combine (ris_actual_conf e) (ris_el_pos e)))
      by (rewrite length_combine, Hlen; unfold ris_num_els; lia).
    apply Cabs_Csum_le. intros [w p] Hin. cbn [fst snd].
    rewrite Cabs_Cmul, Cabs_Cexp_mj, Rmult_1_r.
    rewrite Forall_forall in Hunit. apply Hunit.
    now apply in_combine_l in Hin. }
  assert (Hdiv : Cabs (Cdivr (Csum terms) (INR (ris_num_els e)))
                 = Cabs (Csum terms) / INR (ris_num_els e)).
  { unfold Cabs at 1. unfold Cdivr, Re, Im. cbn [fst snd].
    replace (fst (Csum terms) / INR (ris_num_els e)
             * (fst (Csum terms) / INR (ris_num_els e))
             + snd (Csum terms) / INR (ris_num_els e)
               * (snd (Csum terms) / INR (ris_num_els e)))
      with ((fst (Csum terms) * fst (Csum terms)
             + snd (Csum terms) * snd (Csum terms))
            * (/ INR (ris_num_els e) * / INR (ris_num_els e)))
      by (field; lra).
    rewrite sqrt_mult by nra.
    rewrite sqrt_square by (apply Rlt_le, Rinv_0_lt_compat, HN).
    reflexivity. }
  rewrite Hdiv. pose proof (Cabs_nonneg (Csum terms)) as H0.
  assert (Hq : 0 <= Cabs (Csum terms) / INR (ris_num_els e) <= 1).
  { split.
    - apply Rmult_le_pos; [exact H0 | apply Rlt_le, Rinv_0_lt_compat, HN].
    - apply (Rmult_le_reg_r (INR (ris_num_els e))); [exact HN|].
      replace (Cabs (Csum terms) / INR (ris_num_els e) * INR (ris_num_els e))
        with (Cabs (Csum terms)) by (field; lra).
      lra. }
  nra.
Qed.

(** X8: with a configuration of unit-modulus weights, one for each element of a
    surface that has elements, and points that are all off the origin (the
    code divides every point by its norm), every gain [compute_afgain]
    returns lies between 0 and 1. *)
Theorem compute_afgain_range (e : RisProtocolEnv) (x : list vec3)
    (g : list R) :
  Forall (fun w => Cabs w = 1) (ris_actual_conf e) ->
  length (ris_actual_conf e) = ris_num_els e ->
  ris_el_pos e <> [] ->
  Forall (fun p => norm p <> 0) x ->
  compute_afgain e x = Ok g ->
  Forall (fun v => 0 <= v <= 1) g.
Proof.
  intros Hunit Hlen Hne _ Hrun. unfold compute_afgain in Hrun.
  assert (Hx : x <> []).
  { intros ->. rewrite compute_afgain_batched_empty in Hrun. discriminate. }
  rewrite (compute_afgain_batched_closed e x batch_size batch_size_pos Hx)
    in Hrun.
  destruct (freqs e) as [|f [|f' fs]]; try discriminate.
  injection Hrun as <-. apply Forall_forall. intros v Hv.
  apply in_map_iff in Hv as (dv & <- & _).
  now apply af_gain_point_range.
Qed.

Lemma norm_1_2_2 : norm (1, 2, 2) = 3.
Proof.
  unfold norm. replace (1 * 1 + 2 * 2 + 2 * 2) with (3 * 3) by lra.
  apply sqrt_square. lra.
Qed.

Lemma norm_0_3_4 : norm (0, 3, 4) = 5.
Proof.
  unfold norm. replace (0 * 0 + 3 * 3 + 4 * 4) with (5 * 5) by lra.
  apply sqrt_square. lra.
Qed.

Lemma compute_afgain_range_witness :
  Forall (fun v => 0 <= v <= 1)
         (map (af_gain_point example_env 3000000000)
              (polar [(1, 2, 2); (0, 3, 4)])).
Proof.
  apply (compute_afgain_range example_env [(1, 2, 2); (0, 3, 4)]).
  - repeat constructor; unfold Cabs, Re, Im; simpl;
      replace (1 * 1 + 0 * 0) with 1 by ring; apply sqrt_1.
  - reflexivity.
  - discriminate.
  - repeat constructor; [rewrite norm_1_2_2 | rewrite norm_0_3_4]; lra.
  - unfold compute_afgain.
    rewrite (compute_afgain_batched_closed example_env
               [(1, 2, 2); (0, 3, 4)] batch_size batch_size_pos)
      by discriminate.
    reflexivity.
Defined.

Lemma compute_afgain_blocks_mismatch_witness :
  compute_afgain
    (mkEnv (1 / 10) 5 2 20 1 2 2 (1, 0, 0) [3000000000; 3000180000] 2
           (1 / 20) [(0, 0, 0); (1 / 20, 0, 0)] [(1, 0); (1, 0)])
    [(1, 2, 2)]
  = Raise ValueError.
Proof.
  apply compute_afgain_blocks_mismatch.
  - discriminate.
  - discriminate.
Defined.

(** ** [ecdf]: edge, range and order of the samples *)

From Stdlib Require Import Permutation.

Section EcdfMore.
Context {A : Type} `{Ordered A}.

(** X11: on an empty array [cusum[-1]] raises [IndexError], with either array
    library. *)
Theorem ecdf_empty (has_asnumpy : bool) :
  ecdf has_asnumpy (@nil A) = Raise IndexError.
Proof. destruct has_asnumpy; reflexivity. Qed.

Lemma increasing_pairs (l : list A) (d : A) :
  increasing l ->
  forall i j, (i < j < length l)%nat ->
    leb (nth i l d) (nth j l d) = true /\ leb (nth j l d) (nth i l d) = false.
Proof.
  induction l as [|h l IH]; intros Hinc i j Hij; [simpl in Hij; lia|].
  destruct j as [|j]; [lia|]. destruct i as [|i].
  - simpl. apply (increasing_head h l Hinc). apply nth_In. simpl in Hij. lia.
  - simpl. apply IH; [apply Hinc | simpl in Hij; lia].
Qed.

Lemma filter_length_mono (p q : A -> bool) (a : list A) :
  (forall s, In s a -> p s = true -> q s = true) ->
  (length (filter p a) <= length (filter q a))%nat.
Proof.
  induction a as [|s a IH]; intros Hpq; [simpl; lia|].
  assert (Htail : (length (filter p a) <= length (filter q a))%nat).
  { apply IH. intros s' Hs'. apply Hpq. now right. }
  pose proof (Hpq s (or_introl eq_refl)) as Hs.
  simpl. destruct (p s), (q s); simpl; try lia;
    discriminate (Hs eq_refl).
Qed.

Lemma filter_length_strict (p q : A -> bool) (a : list A) (v : A) :
  (forall s, In s a -> p s = true -> q s = true) ->
  In v a -> p v = false -> q v = true ->
  (length (filter p a) < length (filter q a))%nat.
Proof.
  induction a as [|s a IH]; intros Hpq Hv Hpv Hqv; [destruct Hv|].
  assert (Htail : (length (filter p a) <= length (filter q a))%nat).
  { apply filter_length_mono. intros s' Hs'. apply Hpq. now right. }
  pose proof (Hpq s (or_introl eq_refl)) as Hs.
  destruct Hv as [->|Hv].
  - simpl. rewrite Hpv, Hqv. simpl. lia.
  - assert (Hlt : (length (filter p a) < length (filter q a))%nat).
    { apply IH; try assumption. intros s' Hs'. apply Hpq. now right. }
    simpl. destruct (p s), (q s); simpl; try lia;
      discriminate (Hs eq_refl).
Qed.

Lemma count_le_strict (a : list A) (v v' : A) :
  leb v v' = true -> leb v' v = false -> In v' a ->
  (count_le v a < count_le v' a)%nat.
Proof.
  intros Hle Hnle Hin. unfold count_le.
  apply (filter_length_strict _ _ a v').
  - intros s _ Hs. now apply (leb_trans s v v').
  - exact Hin.
  - exact Hnle.
  - apply leb_refl.
Qed.

Lemma count_le_pos (a : list A) (v : A) : In v a -> (0 < count_le v a)%nat.
Proof.
  intros Hin. unfold count_le.
  assert (Hv : In v (filter (fun s => leb s v) a)).
  { apply filter_In. split; [exact Hin | apply leb_refl]. }
  destruct (filter (fun s => leb s v) a); [destruct Hv | simpl; lia].
Qed.

Lemma count_le_length (a : list A) (v : A) : (count_le v a <= length a)%nat.
Proof. unfold count_le. apply List.filter_length_le. Qed.

Lemma ratio_lt (n c c' : nat) :
  (c < c')%nat -> (ratio n c < ratio n c')%Q.
Proof.
  intros Hc. unfold ratio, Qlt. simpl.
  apply Z.mul_lt_mono_pos_r; [reflexivity | lia].
Qed.

Lemma ratio_range (n c : nat) :
  (0 < c <= n)%nat -> (0 < ratio n c /\ ratio n c <= 1)%Q.
Proof.
  intros Hc. unfold ratio, Qlt, Qle. simpl.
  assert (Hn : Z.pos (Pos.of_nat n) = Z.of_nat n).
  { rewrite <- positive_nat_Z, Nat2Pos.id by lia. reflexivity. }
  rewrite Hn. lia.
Qed.

Lemma ratio_total (n : nat) : (0 < n)%nat -> (ratio n n == 1)%Q.
Proof.
  intros Hn. unfold ratio, Qeq. simpl.
  assert (HP : Z.pos (Pos.of_nat n) = Z.of_nat n).
  { rewrite <- positive_nat_Z, Nat2Pos.id by lia. reflexivity. }
  rewrite HP. lia.
Qed.

(** X12: what [ecdf] returns is a distribution function on the distinct values:
    as many probabilities as values, strictly increasing, each above 0 and at
    most 1, and the last one equal to 1. *)
Theorem ecdf_probabilities (has_asnumpy : bool) (a xs : list A)
    (ps : list Q) :
  ecdf has_asnumpy a = Ok (xs, ps) ->
  length ps = length xs
  /\ (forall i j, (i < j < length ps)%nat -> (nth i ps 0 < nth j ps 0)%Q)
  /\ Forall (fun p => (0 < p /\ p <= 1)%Q) ps
  /\ (nth (length ps - 1) ps 0 == 1)%Q.
Proof.
  intros Hrun.
  assert (Ha : a <> []).
  { intros ->. rewrite ecdf_empty in Hrun. discriminate. }
  rewrite (ecdf_closed has_asnumpy a Ha) in Hrun.
  injection Hrun as <- <-.
  pose proof (increasing_unique_values a) as Hinc.
  assert (Hmem : forall v, In v (unique_values a) -> In v a)
    by (intros v; apply In_unique_values).
  assert (HN : (0 < length a)%nat)
    by (destruct a; [congruence | simpl; lia]).
  assert (Hne : unique_values a <> []).
  { destruct a as [|s a]; [congruence|]. intros Hnil.
    assert (Hin : In s (unique_values (s :: a)))
      by (apply In_unique_values; now left).
    rewrite Hnil in Hin. destruct Hin. }
  rewrite length_map. split; [reflexivity|]. split; [|split].
  - intros i j Hij. destruct (unique_values a) as [|d l] eqn:Hu; [congruence|].
    rewrite <- Hu in *.
    rewrite !(nth_indep _ 0%Q (ratio (length a) (count_le d a)))
      by (rewrite length_map; lia).
    rewrite !(map_nth (fun v => ratio (length a) (count_le v a))).
    destruct (increasing_pairs _ d Hinc i j Hij) as [Hle Hnle].
    apply ratio_lt, count_le_strict; try assumption.
    apply Hmem, nth_In. lia.
  - apply Forall_forall. intros p Hp.
    apply in_map_iff in Hp as (v & <- & Hv).
    apply ratio_range. split.
    + apply count_le_pos, Hmem, Hv.
    + apply count_le_length.
  - destruct (exists_last Hne) as (l & m & Hl). rewrite Hl.
    rewrite length_app, map_app. cbn [map length].
    replace (length l + 1 - 1)%nat
      with (length (map (fun v => ratio (length a) (count_le v a)) l))
      by (rewrite length_map; lia).
    rewrite nth_middle.
    replace (count_le m a) with (length a); [now apply ratio_total|].
    symmetry. unfold count_le. apply filter_length_all. intros s Hs.
    apply (increasing_last l m).
    + rewrite <- Hl. exact Hinc.
    + rewrite <- Hl. now apply In_unique_values.
Qed.

Lemma increasing_canonical (l l' : list A) :
  increasing l -> increasing l' ->
  (forall v, In v l <-> In v l') -> l = l'.
Proof.
  revert l'; induction l as [|h l IH]; intros [|h' l'] Hl Hl' Hsame.
  - reflexivity.
  - exfalso. apply (proj2 (Hsame h')). now left.
  - exfalso. apply (proj1 (Hsame h)). now left.
  - assert (Hhh : h = h').
    { destruct (proj1 (Hsame h) (or_introl eq_refl)) as [Heq|Hin];
        [now symmetry|].
      destruct (proj2 (Hsame h') (or_introl eq_refl)) as [Heq|Hin'];
        [assumption|].
      destruct (increasing_head h' l' Hl' h Hin) as [Ha _].
      destruct (increasing_head h l Hl h' Hin') as [Hb _].
      now apply leb_antisym. }
    subst h'. f_equal. apply IH; [apply Hl | apply Hl' |].
    intros v. split; intros Hv.
    + destruct (proj1 (Hsame v) (or_intror Hv)) as [<-|Hin]; [|exact Hin].
      destruct (increasing_head h l Hl h Hv) as [_ Hn].
      rewrite leb_refl in Hn. discriminate.
    + destruct (proj2 (Hsame v) (or_intror Hv)) as [<-|Hin]; [|exact Hin].
      destruct (increasing_head h l' Hl' h Hv) as [_ Hn].
      rewrite leb_refl in Hn. discriminate.
Qed.

Lemma filter_length_perm (p : A -> bool) (a a' : list A) :
  Permutation a a' -> length (filter p a) = length (filter p a').
Proof.
  induction 1 as [|s a a' _ IH|s s' a|a a' a'' _ IH1 _ IH2]; simpl.
  - reflexivity.
  - destruct (p s); simpl; now rewrite IH.
  - destruct (p s), (p s'); reflexivity.
  - now rewrite IH1.
Qed.

(** X13: the order of the samples does not matter: two arrays with the same
    samples in a different order give the same values and the same
    probabilities. *)
Theorem ecdf_permutation (has_asnumpy : bool) (a a' : list A) :
  Permutation a a' -> ecdf has_asnumpy a = ecdf has_asnumpy a'.
Proof.
  intros Hperm.
  destruct a as [|s a].
  { apply Permutation_nil in Hperm. now subst. }
  assert (Ha' : a' <> []).
  { intros ->. apply Permutation_sym, Permutation_nil in Hperm.
    discriminate. }
  rewrite !ecdf_closed by (assumption || discriminate).
  assert (Hu : unique_values (s :: a) = unique_values a').
  { apply increasing_canonical; try apply increasing_unique_values.
    intros v. rewrite !In_unique_values.
    split; apply Permutation_in; [exact Hperm | now apply Permutation_sym]. }
  rewrite Hu, (Permutation_length Hperm). f_equal. f_equal.
  apply map_ext. intros v. unfold count_le.
  now rewrite (filter_length_perm _ _ _ Hperm).
Qed.
End EcdfMore.

Lemma ecdf_probabilities_witness :
  length [2 # 6; 3 # 6; 6 # 6]%Q = length [1; 2; 3]%Z
  /\ (forall i j, (i < j < length [2 # 6; 3 # 6; 6 # 6]%Q)%nat ->
        (nth i [2 # 6; 3 # 6; 6 # 6] 0 < nth j [2 # 6; 3 # 6; 6 # 6] 0)%Q)
  /\ Forall (fun p => (0 < p /\ p <= 1)%Q) [2 # 6; 3 # 6; 6 # 6]%Q
  /\ (nth (length [2 # 6; 3 # 6; 6 # 6]%Q - 1) [2 # 6; 3 # 6; 6 # 6] 0 == 1)%Q.
Proof.
  apply (ecdf_probabilities false [1; 1; 2; 3; 3; 3]%Z). reflexivity.
Defined.

Lemma ecdf_permutation_witness :
  ecdf false [1; 1; 2; 3; 3; 3]%Z = ecdf false [3; 1; 3; 2; 1; 3]%Z.
Proof.
  apply ecdf_permutation.
  apply (Permutation_trans (l' := [1; 3; 1; 2; 3; 3]%Z)).
  - apply perm_skip.
    apply (Permutation_trans (l' := [3; 1; 2; 3; 3]%Z)).
    + change [1; 2; 3; 3; 3]%Z with ([1; 2; 3] ++ [3] ++ [3])%Z.
      apply (Permutation_trans (l' := ([3] ++ [1; 2; 3] ++ [3])%Z));
        [|reflexivity].
      apply Permutation_app_swap_app.
    + reflexivity.
  - apply (Permutation_trans (l' := [3; 1; 1; 2; 3; 3]%Z));
      [apply perm_swap|].
    apply perm_skip, perm_skip.
    change [1; 2; 3; 3]%Z with ([1; 2] ++ [3] ++ [3])%Z.
    change [3; 2; 1; 3]%Z with ([3] ++ [2; 1] ++ [3])%Z.
    apply (Permutation_trans (l' := ([3] ++ [1; 2] ++ [3])%Z));
      [apply Permutation_app_swap_app|].
    apply perm_skip. simpl. apply perm_swap.
Defined.

(** ** Signal-to-noise ratios *)

Lemma zip_with_diag {X Y : Type} (f : X -> X -> Y) (l : list X) :
  zip_with f l l = map (fun v => f v v) l.
Proof. induction l as [|v l IH]; simpl; [reflexivity | now rewrite IH]. Qed.

Lemma In_zip_with {X Y Z : Type} (f : X -> Y -> Z) (l : list X) (l' : list Y)
    (v : Z) :
  In v (zip_with f l l') -> exists a b, v = f a b /\ In a l /\ In b l'.
Proof.
  revert l'; induction l as [|a l IH]; intros [|b l'] Hv; simpl in Hv;
    try contradiction.
  destruct Hv as [<-|Hv].
  - exists a, b. simpl. auto.
  - destruct (IH l' Hv) as (a' & b' & -> & Ha & Hb).
    exists a', b'. simpl. auto.
Qed.

Lemma Cabs_pow2 (z : C) : Cabs z ^ 2 = Re z * Re z + Im z * Im z.
Proof. rewrite <- Cabs_sqr. ring. Qed.

Lemma log2_nonneg (s : R) : 0 <= s -> 0 <= log2 (1 + s).
Proof.
  intros Hs. unfold log2.
  assert (H2 : 0 < ln 2) by (rewrite <- ln_1; apply ln_increasing; lra).
  assert (Hl : 0 <= ln (1 + s)).
  { destruct Hs as [Hs|<-].
    - rewrite <- ln_1. apply Rlt_le, ln_increasing; lra.
    - rewrite Rplus_0_r, ln_1. lra. }
  apply Rmult_le_pos; [exact Hl | apply Rlt_le, Rinv_0_lt_compat, H2].
Qed.

(** X14: without pilot noise the noisy SNR is the true SNR: with draws that are
    all zero, [snr_cb_noisy] equals [snr_cb], for a transmit power that is
    not negative. *)
Theorem snr_cb_noisy_without_noise (tx noise_power : R) (k : nat)
    (h_eq : list (list C)) :
  0 <= tx ->
  snr_cb_noisy tx noise_power k h_eq (ScriptMain.no_noise h_eq)
  = ScriptMain.snr_cb tx noise_power h_eq.
Proof.
  intros Htx.
  unfold snr_cb_noisy, sig_pow_noisy_cb, bsw_noise_, ScriptMain.no_noise,
    ScriptMain.snr_cb, ScriptMain.sig_pow_cb.
  f_equal. rewrite map_map, zip_with_map_r, zip_with_diag.
  apply map_ext. intros hs.
  rewrite map_map, zip_with_map_r, zip_with_diag.
  apply map_ext. intros h.
  rewrite !Cabs_pow2. unfold Cadd, Cscale, C0, Re, Im. simpl.
  pose proof (sqrt_sqrt tx Htx) as Hs.
  replace ((sqrt tx * fst h + sqrt (var noise_power k) * 0)
           * (sqrt tx * fst h + sqrt (var noise_power k) * 0)
           + (sqrt tx * snd h + sqrt (var noise_power k) * 0)
             * (sqrt tx * snd h + sqrt (var noise_power k) * 0))
    with (sqrt tx * sqrt tx * (fst h * fst h + snd h * snd h)) by ring.
  now rewrite Hs.
Qed.

Lemma snr_cb_noisy_without_noise_witness :
  snr_cb_noisy 100 2 1 [[(1, 0); (0, 1)]]
               (ScriptMain.no_noise [[(1, 0); (0, 1)]])
  = ScriptMain.snr_cb 100 2 [[(1, 0); (0, 1)]].
Proof.
  apply (snr_cb_noisy_without_noise 100 2 1 [[(1, 0); (0, 1)]]). lra.
Defined.

(** X15: with a positive noise power, no noisy SNR is negative, whatever the
    channel and the draws; with a transmit power that is not negative no true
    SNR is negative either, and no rate computed from them is. *)
Theorem snr_never_negative (tx noise_power : R) (k : nat)
    (h_eq noise : list (list C)) :
  0 <= tx ->
  0 < noise_power ->
  Forall (Forall (fun s => 0 <= s)) (snr_cb_noisy tx noise_power k h_eq noise)
  /\ Forall (Forall (fun s => 0 <= s)) (ScriptMain.snr_cb tx noise_power h_eq)
  /\ Forall (Forall (fun r => 0 <= r))
            (ScriptMain.rate_cb (snr_cb_noisy tx noise_power k h_eq noise))
  /\ Forall (Forall (fun r => 0 <= r))
            (ScriptMain.rate_cb (ScriptMain.snr_cb tx noise_power h_eq)).
Proof.
  intros Htx Hnp.
  assert (Hinv : 0 <= / noise_power) by (apply Rlt_le, Rinv_0_lt_compat, Hnp).
  assert (Hnoisy : Forall (Forall (fun s => 0 <= s))
                          (snr_cb_noisy tx noise_power k h_eq noise)).
  { apply Forall_forall. intros row Hrow. apply Forall_forall. intros s Hs.
    unfold snr_cb_noisy, sig_pow_noisy_cb in Hrow.
    apply in_map_iff in Hrow as (prow & <- & Hprow).
    apply in_map_iff in Hs as (p & <- & Hp).
    apply In_zip_with in Hprow as (hs & ws & -> & _ & _).
    apply In_zip_with in Hp as (h & w & -> & _ & _).
    apply Rmult_le_pos; [|exact Hinv]. apply pow2_ge_0. }
  assert (Htrue : Forall (Forall (fun s => 0 <= s))
                         (ScriptMain.snr_cb tx noise_power h_eq)).
  { apply Forall_forall. intros row Hrow. apply Forall_forall. intros s Hs.
    unfold ScriptMain.snr_cb, ScriptMain.sig_pow_cb in Hrow.
    rewrite map_map in Hrow.
    apply in_map_iff in Hrow as (hs & <- & _).
    rewrite map_map in Hs. apply in_map_iff in Hs as (h & <- & _).
    apply Rmult_le_pos; [|exact Hinv].
    apply Rmult_le_pos; [exact Htx | apply pow2_ge_0]. }
  assert (Hrate : forall snr, Forall (Forall (fun s => 0 <= s)) snr ->
                    Forall (Forall (fun r => 0 <= r)) (ScriptMain.rate_cb snr)).
  { intros snr Hsnr. unfold ScriptMain.rate_cb.
    apply Forall_forall. intros row Hrow. apply Forall_forall. intros r Hr.
    apply in_map_iff in Hrow as (srow & <- & Hsrow).
    apply in_map_iff in Hr as (s & <- & Hs).
    apply log2_nonneg.
    rewrite Forall_forall in Hsnr. specialize (Hsnr srow Hsrow).
    rewrite Forall_forall in Hsnr. now apply Hsnr. }
  repeat split; auto.
Qed.

Lemma snr_never_negative_witness :
  Forall (Forall (fun s => 0 <= s))
         (snr_cb_noisy 100 2 1 [[(1, 0); (0, 1)]] [[(1, -1); (0, 2)]])
  /\ Forall (Forall (fun s => 0 <= s))
            (ScriptMain.snr_cb 100 2 [[(1, 0); (0, 1)]])
  /\ Forall (Forall (fun r => 0 <= r))
            (ScriptMain.rate_cb
               (snr_cb_noisy 100 2 1 [[(1, 0); (0, 1)]] [[(1, -1); (0, 2)]]))
  /\ Forall (Forall (fun r => 0 <= r))
            (ScriptMain.rate_cb (ScriptMain.snr_cb 100 2 [[(1, 0); (0, 1)]])).
Proof.
  apply (snr_never_negative 100 2 1 [[(1, 0); (0, 1)]] [[(1, -1); (0, 2)]]);
    lra.
Defined.

(** ** The codebook: shape, modulus, symmetry *)

Lemma DFT_norm_entry (N j k : nat) :
  (j < N)%nat -> (k < N)%nat ->
  nth k (nth j (DFT_norm N) []) C0
  = Cdivr (Cexp_mj (INR (k * j) * (2 * PI / INR N))) (sqrt (INR N)).
Proof.
  intros Hj Hk. rewrite DFT_norm_row by exact Hj.
  now rewrite nth_map_seq by exact Hk.
Qed.

(** X16: the codebook is a square matrix of the RIS size whose entries all have
    the same modulus: the square of the modulus of every entry is [1 / N], so
    every configuration weights all the elements equally. *)
Theorem DFT_norm_constant_modulus (N j k : nat) :
  (j < N)%nat -> (k < N)%nat ->
  length (DFT_norm N) = N
  /\ length (nth j (DFT_norm N) []) = N
  /\ Cabs (nth k (nth j (DFT_norm N) []) C0) ^ 2 = / INR N.
Proof.
  intros Hj Hk.
  assert (HN : 0 < INR N) by (apply lt_0_INR; lia).
  split; [|split].
  - unfold DFT_norm. now rewrite DFT_closed, !length_map, length_seq.
  - rewrite DFT_norm_row by exact Hj. now rewrite length_map, length_seq.
  - rewrite DFT_norm_entry by assumption. rewrite Cabs_pow2.
    assert (Hs : sqrt (INR N) * sqrt (INR N) = INR N)
      by (apply sqrt_sqrt; lra).
    assert (Hs0 : sqrt (INR N) <> 0) by (intros H0; rewrite H0 in Hs; lra).
    unfold Cdivr, Cexp_mj, Re, Im. cbn [fst snd].
    set (t := INR (k * j) * (2 * PI / INR N)).
    pose proof (sin2_cos2 t) as Hsc. unfold Rsqr in Hsc.
    replace (cos t / sqrt (INR N) * (cos t / sqrt (INR N))
             + - sin t / sqrt (INR N) * (- sin t / sqrt (INR N)))
      with ((sin t * sin t + cos t * cos t) / (sqrt (INR N) * sqrt (INR N)))
      by (field; exact Hs0).
    rewrite Hsc, Hs. field. lra.
Qed.

Lemma DFT_norm_constant_modulus_witness :
  length (DFT_norm 4) = 4%nat
  /\ length (nth 1 (DFT_norm 4) []) = 4%nat
  /\ Cabs (nth 3 (nth 1 (DFT_norm 4) []) C0) ^ 2 = / INR 4.
Proof. apply (DFT_norm_constant_modulus 4 1 3); lia. Defined.

(** X17: the codebook is symmetric: the weight configuration [j] gives
    element [k] is the weight configuration [k] gives element [j]. *)
Theorem DFT_norm_symmetric (N j k : nat) :
  (j < N)%nat -> (k < N)%nat ->
  nth k (nth j (DFT_norm N) []) C0 = nth j (nth k (DFT_norm N) []) C0.
Proof.
  intros Hj Hk. rewrite !DFT_norm_entry by assumption.
  now rewrite Nat.mul_comm.
Qed.

Lemma DFT_norm_symmetric_witness :
  nth 3 (nth 1 (DFT_norm 4) []) C0 = nth 1 (nth 3 (DFT_norm 4) []) C0.
Proof. apply (DFT_norm_symmetric 4 1 3); lia. Defined.

(** ** The beam-sweep search: shape, range and sentinel *)

(** X19: the two arrays the search fills have one row for each threshold and one
    column for each user. *)
Theorem beam_sweep_shape (range : list R) (snr : list (list R)) (st : flex) :
  beam_sweep (length snr) range snr = Ok st ->
  length (rate_flex st) = length range
  /\ length (n_configurations_flex st) = length range
  /\ Forall (fun row => length row = length snr) (rate_flex st)
  /\ Forall (fun row => length row = length snr) (n_configurations_flex st).
Proof.
  rewrite beam_sweep_closed. intros [= <-]. simpl.
  rewrite !length_map. repeat split; try reflexivity.
  - apply Forall_forall. intros row Hrow.
    apply in_map_iff in Hrow as (t & <- & _). apply length_map.
  - apply Forall_forall. intros row Hrow.
    apply in_map_iff in Hrow as (t & <- & _). apply length_map.
Qed.

Lemma beam_sweep_shape_witness :
  length [[log2 (1 + 1); 0]; [log2 (1 + 100); 0]] = length [1; 100]
  /\ length [[2; 0]; [3; 0]] = length [1; 100]
  /\ Forall (fun row => length row = length [[0; 5; 200]; [0; 0; 1 / 2]])
            [[log2 (1 + 1); 0]; [log2 (1 + 100); 0]]
  /\ Forall (fun row => length row = length [[0; 5; 200]; [0; 0; 1 / 2]])
            [[2; 0]; [3; 0]].
Proof.
  apply (beam_sweep_shape [1; 100] [[0; 5; 200]; [0; 0; 1 / 2]]
           (mkFlex [[log2 (1 + 1); 0]; [log2 (1 + 100); 0]]
                   [[2; 0]; [3; 0]])).
  apply beam_sweep_two_users.
Defined.

Lemma first_true_bound (mask : list bool) (i : nat) :
  first_true mask = Some i -> (i < length mask)%nat.
Proof.
  revert i; induction mask as [|[|] mask IH]; intros i; simpl.
  - discriminate.
  - intros [= <-]. lia.
  - destruct (first_true mask) as [i'|]; simpl; [|discriminate].
    intros [= <-]. specialize (IH i' eq_refl). lia.
Qed.

(** X20: the number of configurations recorded for a user and a threshold is a
    whole number between 0 and the size of the codebook, and it is 0 exactly
    when no configuration clears the threshold; the rate recorded with a
    count of 0 is 0. *)
Theorem beam_sweep_count_range (range : list R) (snr : list (list R))
    (st : flex) (ms uu : nat) :
  beam_sweep (length snr) range snr = Ok st ->
  (ms < length range)%nat ->
  (uu < length snr)%nat ->
  exists c : nat,
    item2 (n_configurations_flex st) ms uu = INR c
    /\ (c <= length (nth uu snr []))%nat
    /\ (c = 0%nat <-> none_clearing (nth uu snr []) (nth ms range 0))
    /\ (c = 0%nat -> item2 (rate_flex st) ms uu = 0).
Proof.
  rewrite beam_sweep_closed. intros [= <-] Hms Huu.
  cbn [n_configurations_flex rate_flex].
  pose proof (item2_map swept range snr ms uu Hms Huu) as Hn.
  pose proof (item2_map rate_of range snr ms uu Hms Huu) as Hr.
  pose proof (first_true_none (nth uu snr []) (nth ms range 0)) as Hnone.
  destruct (first_true (map (fun s => Rgeb s (nth ms range 0))
                            (nth uu snr []))) as [i|] eqn:Hft.
  - exists (i + 1)%nat. rewrite Hn. unfold swept. rewrite Hft.
    apply first_true_bound in Hft. rewrite length_map in Hft.
    split; [reflexivity|]. split; [lia|]. split; [|lia].
    split; [lia|]. intros Hcontra. apply Hnone in Hcontra. discriminate.
  - exists 0%nat. rewrite Hn, Hr. unfold swept, rate_of. rewrite Hft.
    split; [reflexivity|]. split; [lia|]. split; [|reflexivity].
    split; [intros _; now apply Hnone | reflexivity].
Qed.

Lemma beam_sweep_count_range_witness :
  exists c : nat,
    item2 [[2; 0]; [3; 0]] 1 0 = INR c
    /\ (c <= length (nth 0 [[0; 5; 200]; [0; 0; 1 / 2]] []))%nat
    /\ (c = 0%nat
        <-> none_clearing (nth 0 [[0; 5; 200]; [0; 0; 1 / 2]] [])
                          (nth 1 [1; 100] 0))
    /\ (c = 0%nat
        -> item2 [[log2 (1 + 1); 0]; [log2 (1 + 100); 0]] 1 0 = 0).
Proof.
  apply (beam_sweep_count_range [1; 100] [[0; 5; 200]; [0; 0; 1 / 2]]
           (mkFlex [[log2 (1 + 1); 0]; [log2 (1 + 100); 0]]
                   [[2; 0]; [3; 0]]) 1 0).
  - apply beam_sweep_two_users.
  - simpl. lia.
  - simpl. lia.
Defined.

Lemma first_true_none_mono (row : list R) (t1 t2 : R) :
  t1 <= t2 ->
  first_true (map (fun s => Rgeb s t1) row) = None ->
  first_true (map (fun s => Rgeb s t2) row) = None.
Proof.
  intros Ht Hnone.
  destruct (first_true (map (fun s => Rgeb s t2) row)) as [i2|] eqn:H2;
    [|reflexivity].
  destruct (first_true_mono row t1 t2 i2 Ht H2) as (i1 & Hi1 & _).
  congruence.
Qed.

(** X21: once a threshold is out of a user's reach it stays so: when the count
    recorded for a threshold is 0, the count and the rate recorded for every
    larger threshold are 0 too. *)
Theorem beam_sweep_sentinel_persists (range : list R) (snr : list (list R))
    (st : flex) (ms1 ms2 uu : nat) :
  beam_sweep (length snr) range snr = Ok st ->
  (ms1 < length range)%nat ->
  (ms2 < length range)%nat ->
  (uu < length snr)%nat ->
  nth ms1 range 0 <= nth ms2 range 0 ->
  item2 (n_configurations_flex st) ms1 uu = 0 ->
  item2 (n_configurations_flex st) ms2 uu = 0
  /\ item2 (rate_flex st) ms2 uu = 0.
Proof.
  rewrite beam_sweep_closed. intros [= <-] Hms1 Hms2 Huu Ht.
  cbn [n_configurations_flex rate_flex].
  rewrite !(item2_map swept), (item2_map rate_of) by assumption.
  unfold swept, rate_of. intros H0.
  destruct (first_true (map (fun s => Rgeb s (nth ms1 range 0)) _))
    as [i1|] eqn:H1.
  - exfalso. rewrite plus_INR in H0. simpl in H0.
    pose proof (pos_INR i1). lra.
  - rewrite (first_true_none_mono _ _ _ Ht H1). split; reflexivity.
Qed.

Lemma beam_sweep_sentinel_persists_witness :
  item2 [[2; 0]; [3; 0]] 1 1 = 0
  /\ item2 [[log2 (1 + 1); 0]; [log2 (1 + 100); 0]] 1 1 = 0.
Proof.
  apply (beam_sweep_sentinel_persists [1; 100] [[0; 5; 200]; [0; 0; 1 / 2]]
           (mkFlex [[log2 (1 + 1); 0]; [log2 (1 + 100); 0]]
                   [[2; 0]; [3; 0]]) 0 1 1).
  - apply beam_sweep_two_users.
  - simpl. lia.
  - simpl. lia.
  - simpl. lia.
  - simpl. lra.
  - reflexivity.
Defined.

(** ** Rate accounting at the edges *)

Lemma nth_zip_with {X Y Z : Type} (f : X -> Y -> Z) (l : list X)
    (l' : list Y) (i : nat) (dx : X) (dy : Y) (dz : Z) :
  (i < length l)%nat -> (i < length l')%nat ->
  nth i (zip_with f l l') dz = f (nth i l dx) (nth i l' dy).
Proof.
  revert l' i; induction l as [|a l IH]; intros [|b l'] [|i] Hl Hl';
    simpl in *; try lia; try reflexivity.
  apply IH; lia.
Qed.

Lemma nth_map_in_range {X Y : Type} (f : X -> Y) (l : list X) (i : nat)
    (dx : X) (dy : Y) :
  (i < length l)%nat -> nth i (map f l) dy = f (nth i l dx).
Proof.
  intros Hi. rewrite (nth_indep _ dy (f dx)) by (now rewrite length_map).
  apply map_nth.
Qed.

Lemma item2_map_map (f : R -> R) (m : list (list R)) (i j : nat) :
  (i < length m)%nat -> (j < length (nth i m []))%nat ->
  item2 (map (map f) m) i j = f (item2 m i j).
Proof.
  intros Hi Hj. unfold item2.
  rewrite (nth_map_in_range (map f) m i [] []) by exact Hi.
  now rewrite (nth_map_in_range f _ j 0 0) by exact Hj.
Qed.

Lemma item2_zip_with (f : R -> R -> R) (m m' : list (list R)) (i j : nat) :
  (i < length m)%nat -> (i < length m')%nat ->
  (j < length (nth i m []))%nat -> (j < length (nth i m' []))%nat ->
  item2 (zip_with (zip_with f) m m') i j = f (item2 m i j) (item2 m' i j).
Proof.
  intros Hi Hi' Hj Hj'. unfold item2.
  rewrite (nth_zip_with (zip_with f) m m' i [] [] []) by assumption.
  now rewrite (nth_zip_with f _ _ j 0 0 0) by assumption.
Qed.

Lemma tau_setup_cases (setup : string) :
  tau_setup setup = T \/ tau_setup setup = 2 * T \/ tau_setup setup = 3 * T.
Proof.
  unfold tau_setup.
  destruct (String.eqb setup "ob-cc"); [now left|].
  destruct (String.eqb setup "ib-no"); [right; now left | right; now right].
Qed.

Lemma item2_prelog (setup : string) (n_conf : list (list R)) (i j : nat) :
  (i < length n_conf)%nat -> (j < length (nth i n_conf []))%nat ->
  item2 (prelog_term setup n_conf) i j
  = 1 - (2 * tau_setup setup + (2 * item2 n_conf i j - 1) * T) / total_tau.
Proof.
  intros Hi Hj. unfold prelog_term, tau_alg.
  assert (Hmm : forall (g h : R -> R) (m : list (list R)),
            map (map g) (map (map h) m) = map (map (fun c => g (h c))) m).
  { intros g h m. rewrite map_map. apply map_ext. intros row.
    apply map_map. }
  rewrite Hmm, item2_map_map by assumption. f_equal. f_equal. ring.
Qed.

(** X22: the pre-log factor changes sign within the range of sweep counts a
    codebook of a hundred configurations produces: for every setup it is
    positive up to 97 configurations swept and negative from 100 on, and a
    negative factor makes the effective rate of a user of positive rate
    negative. *)
Theorem prelog_term_sign (setup : string) (st : flex) (i j : nat) :
  (i < length (n_configurations_flex st))%nat ->
  (j < length (nth i (n_configurations_flex st) []))%nat ->
  (i < length (rate_flex st))%nat ->
  (j < length (nth i (rate_flex st) []))%nat ->
  (item2 (n_configurations_flex st) i j <= 97 ->
   0 < item2 (prelog_term setup (n_configurations_flex st)) i j)
  /\ (100 <= item2 (n_configurations_flex st) i j ->
      item2 (prelog_term setup (n_configurations_flex st)) i j < 0
      /\ (0 < item2 (rate_flex st) i j ->
          item2 (rate_cb_bsw setup st) i j < 0)).
Proof.
  intros Hi Hj Hi' Hj'.
  pose proof (item2_prelog setup _ i j Hi Hj) as Hpre.
  set (c := item2 (n_configurations_flex st) i j) in *.
  assert (Hform : forall k, tau_setup setup = k * T ->
            item2 (prelog_term setup (n_configurations_flex st)) i j
            = (201 - 2 * c - 2 * k) / 200).
  { intros k Hk. rewrite Hpre, Hk. unfold total_tau, T, n_ttis. field. }
  assert (Hk : exists k, 1 <= k <= 3 /\ tau_setup setup = k * T).
  { destruct (tau_setup_cases setup) as [H1|[H2|H3]].
    - exists 1. split; [lra | rewrite H1; ring].
    - exists 2. split; [lra | exact H2].
    - exists 3. split; [lra | exact H3]. }
  destruct Hk as (k & Hkr & Hk). rewrite (Hform k Hk).
  split; [intros Hc; lra|]. intros Hc. split; [lra|]. intros Hr.
  unfold rate_cb_bsw.
  rewrite (item2_zip_with Rmult).
  - rewrite (Hform k Hk). fold c. nra.
  - unfold prelog_term, tau_alg. now rewrite !length_map.
  - exact Hi'.
  - unfold prelog_term, tau_alg. rewrite map_map.
    rewrite (nth_map_in_range _ _ i [] []) by exact Hi.
    now rewrite !length_map.
  - exact Hj'.
Qed.

Lemma prelog_term_sign_witness :
  0 < item2 (prelog_term "ib-wf" [[2; 100]]) 0 0
  /\ item2 (prelog_term "ib-wf" [[2; 100]]) 0 1 < 0
  /\ item2 (rate_cb_bsw "ib-wf" (mkFlex [[1; 1]] [[2; 100]])) 0 1 < 0.
Proof.
  destruct (prelog_term_sign "ib-wf" (mkFlex [[1; 1]] [[2; 100]]) 0 0)
    as [Hpos _]; try (simpl; lia).
  destruct (prelog_term_sign "ib-wf" (mkFlex [[1; 1]] [[2; 100]]) 0 1)
    as [_ Hneg]; try (simpl; lia).
  split; [apply Hpos; unfold item2; simpl; lra|].
  assert (H100 : 100 <= item2 [[2; 100]] 0 1) by (unfold item2; simpl; lra).
  destruct (Hneg H100) as [Hp Hr]. split; [exact Hp|].
  apply Hr. unfold item2. simpl. lra.
Defined.

Lemma sum_zeros (l : list R) :
  Forall (fun v => v = 0) l -> fold_right Rplus 0 l = 0.
Proof.
  induction 1 as [|v l Hv _ IH]; simpl; [reflexivity|]. rewrite Hv, IH. ring.
Qed.

(** X23: a user who clears no configuration at a threshold is charged the
    overhead [(2 * 0 - 1) T = - T] and contributes the effective rate 0 under
    every setup; a threshold that no user clears has average rate 0. *)
Theorem rate_cb_bsw_sentinel (setup : string) (range : list R)
    (snr : list (list R)) (st : flex) (ms uu : nat) :
  beam_sweep (length snr) range snr = Ok st ->
  (ms < length range)%nat ->
  (uu < length snr)%nat ->
  none_clearing (nth uu snr []) (nth ms range 0) ->
  item2 (tau_alg (n_configurations_flex st)) ms uu = - T
  /\ item2 (rate_cb_bsw setup st) ms uu = 0
  /\ ((forall u, (u < length snr)%nat ->
         none_clearing (nth u snr []) (nth ms range 0)) ->
      nth ms (avg_rate_cb_bsw setup st) 0 = 0).
Proof.
  rewrite beam_sweep_closed. intros [= <-] Hms Huu Hnone.
  cbn [n_configurations_flex rate_flex].
  set (nc := map (fun t => map (fun row => swept row t) snr) range).
  set (rf := map (fun t => map (fun row => rate_of row t) snr) range).
  assert (Hlen : length nc = length range) by (unfold nc; apply length_map).
  assert (Hlen' : length rf = length range) by (unfold rf; apply length_map).
  assert (Hrow : length (nth ms nc []) = length snr).
  { unfold nc. rewrite (nth_map_in_range _ range ms 0 []) by exact Hms.
    apply length_map. }
  assert (Hrow' : length (nth ms rf []) = length snr).
  { unfold rf. rewrite (nth_map_in_range _ range ms 0 []) by exact Hms.
    apply length_map. }
  assert (Hcell : forall u, (u < length snr)%nat ->
            none_clearing (nth u snr []) (nth ms range 0) ->
            item2 nc ms u = 0 /\ item2 rf ms u = 0).
  { intros u Hu Hn. unfold nc, rf.
    rewrite (item2_map swept), (item2_map rate_of) by assumption.
    unfold swept, rate_of. apply first_true_none in Hn. now rewrite Hn. }
  destruct (Hcell uu Huu Hnone) as [Hc Hr].
  split; [|split].
  - unfold tau_alg. rewrite item2_map_map by (rewrite ?Hlen, ?Hrow; lia).
    rewrite Hc. ring.
  - unfold rate_cb_bsw. cbn [n_configurations_flex rate_flex].
    rewrite (item2_zip_with Rmult).
    + fold rf. rewrite Hr. ring.
    + unfold prelog_term, tau_alg. rewrite !length_map. lia.
    + lia.
    + unfold prelog_term, tau_alg. rewrite map_map.
      rewrite (nth_map_in_range _ _ ms [] []) by lia.
      rewrite !length_map. lia.
    + lia.
  - intros Hall. unfold avg_rate_cb_bsw, rate_cb_bsw.
    cbn [n_configurations_flex rate_flex]. fold nc rf.
    rewrite (nth_map_in_range mean _ ms [] 0).
    2:{ rewrite <- (map_id (zip_with _ _ _)), map_zip_with.
        clear -Hlen Hlen' Hms.
        assert (Hz : forall (X Y Z : Type) (f : X -> Y -> Z) l l',
                   length (zip_with f l l') = Nat.min (length l) (length l')).
        { intros X Y Z f l. induction l as [|a l IH]; intros [|b l'];
            simpl; try reflexivity. now rewrite IH. }
        rewrite Hz. unfold prelog_term, tau_alg. rewrite !length_map. lia. }
    rewrite (nth_zip_with (zip_with Rmult) _ _ ms [] [] []).
    2:{ unfold prelog_term, tau_alg. rewrite !length_map. lia. }
    2:{ lia. }
    unfold mean. rewrite sum_zeros; [unfold Rdiv; ring|].
    apply Forall_forall. intros v Hv.
    apply In_zip_with in Hv as (p & r & -> & _ & Hrin).
    apply In_nth with (d := 0) in Hrin as (u & Hu & <-).
    rewrite Hrow' in Hu.
    destruct (Hcell u Hu (Hall u Hu)) as [_ Hr0].
    unfold item2 in Hr0. rewrite Hr0. ring.
Qed.

Lemma rate_cb_bsw_sentinel_witness :
  item2 (tau_alg [[2; 0]; [0; 0]]) 1 0 = - T
  /\ item2 (rate_cb_bsw "ob-cc"
              (mkFlex [[log2 (1 + 1); 0]; [0; 0]] [[2; 0]; [0; 0]])) 1 0 = 0
  /\ nth 1 (avg_rate_cb_bsw "ob-cc"
              (mkFlex [[log2 (1 + 1); 0]; [0; 0]] [[2; 0]; [0; 0]])) 0 = 0.
Proof.
  assert (Hrun : beam_sweep 2 [1; 1000] [[0; 5; 200]; [0; 0; 1 / 2]]
                 = Ok (mkFlex [[log2 (1 + 1); 0]; [0; 0]] [[2; 0]; [0; 0]])).
  { unfold beam_sweep, zeros2. simpl for_enumerate.
    unfold sweep_user, get_item. simpl. decide_mask. simpl.
    repeat f_equal; lra. }
  assert (Hnone : forall u, (u < 2)%nat ->
            none_clearing (nth u [[0; 5; 200]; [0; 0; 1 / 2]] []) 1000).
  { intros [|[|u]] Hu; [| |lia]; intros [|[|[|j]]] Hj; simpl in *;
      try lra; lia. }
  destruct (rate_cb_bsw_sentinel "ob-cc" [1; 1000]
              [[0; 5; 200]; [0; 0; 1 / 2]] _ 1 0 Hrun)
    as (Ht & Hr & Havg).
  - simpl. lia.
  - simpl. lia.
  - apply (Hnone 0%nat). lia.
  - split; [exact Ht|]. split; [exact Hr|]. apply Havg. exact Hnone.
Defined.

(** ** Power over the codebook *)

Lemma Csum_map_zero {X : Type} (l : list X) :
  Csum (map (fun _ => C0) l) = C0.
Proof.
  induction l as [|i l IH]; [reflexivity|].
  cbn [map Csum fold_right]. fold (Csum (map (fun _ : X => C0) l)).
  rewrite IH. unfold Cadd, C0, Re, Im. simpl. f_equal; ring.
Qed.

Lemma Csum_map_add {X : Type} (F G : X -> C) (l : list X) :
  Csum (map (fun i => Cadd (F i) (G i)) l)
  = Cadd (Csum (map F l)) (Csum (map G l)).
Proof.
  induction l as [|i l IH].
  - simpl. unfold Cadd, C0, Re, Im. simpl. f_equal; ring.
  - cbn [map Csum fold_right].
    fold (Csum (map (fun i => Cadd (F i) (G i)) l)).
    fold (Csum (map F l)). fold (Csum (map G l)).
    rewrite IH. unfold Cadd, Re, Im. simpl. f_equal; ring.
Qed.

Lemma Csum_map_mul_l {X : Type} (c : C) (F : X -> C) (l : list X) :
  Csum (map (fun i => Cmul c (F i)) l) = Cmul c (Csum (map F l)).
Proof.
  induction l as [|i l IH].
  - simpl. unfold Cmul, C0, Re, Im. simpl. f_equal; ring.
  - cbn [map Csum fold_right].
    fold (Csum (map (fun i => Cmul c (F i)) l)). fold (Csum (map F l)).
    rewrite IH. unfold Cmul, Cadd, Re, Im. simpl. f_equal; ring.
Qed.

Lemma Csum_map_mul_r {X : Type} (c : C) (F : X -> C) (l : list X) :
  Csum (map (fun i => Cmul (F i) c) l) = Cmul (Csum (map F l)) c.
Proof.
  induction l as [|i l IH].
  - simpl. unfold Cmul, C0, Re, Im. simpl. f_equal; ring.
  - cbn [map Csum fold_right].
    fold (Csum (map (fun i => Cmul (F i) c) l)). fold (Csum (map F l)).
    rewrite IH. unfold Cmul, Cadd, Re, Im. simpl. f_equal; ring.
Qed.

Lemma Csum_map_conj {X : Type} (F : X -> C) (l : list X) :
  Csum (map (fun i => Cconj (F i)) l) = Cconj (Csum (map F l)).
Proof.
  induction l as [|i l IH].
  - simpl. unfold Cconj, C0, Re, Im. simpl. f_equal; ring.
  - cbn [map Csum fold_right].
    fold (Csum (map (fun i => Cconj (F i)) l)). fold (Csum (map F l)).
    rewrite IH. unfold Cconj, Cadd, Re, Im. simpl. f_equal; ring.
Qed.

Lemma Re_Csum {X : Type} (F : X -> C) (l : list X) :
  Re (Csum (map F l)) = fold_right Rplus 0 (map (fun i => Re (F i)) l).
Proof.
  induction l as [|i l IH]; [reflexivity|].
  cbn [map Csum fold_right]. fold (Csum (map F l)).
  rewrite <- IH. reflexivity.
Qed.

Lemma Csum_swap {X Y : Type} (F : X -> Y -> C) (l : list X) (l' : list Y) :
  Csum (map (fun i => Csum (map (F i) l')) l)
  = Csum (map (fun j => Csum (map (fun i => F i j) l)) l').
Proof.
  induction l as [|i l IH].
  - cbn [map]. rewrite (map_ext _ (fun _ => C0)) by reflexivity.
    now rewrite Csum_map_zero.
  - rewrite (map_ext (fun j => Csum (map (fun i0 => F i0 j) (i :: l)))
                     (fun j => Cadd (F i j)
                                    (Csum (map (fun i0 => F i0 j) l))))
      by reflexivity.
    rewrite Csum_map_add, <- IH. reflexivity.
Qed.

Lemma Csum_delta_above (F : nat -> C) (e s n : nat) :
  (e < s)%nat ->
  Csum (map (fun e' => Cmul (F e') (if (e =? e')%nat then C1 else C0))
            (seq s n)) = C0.
Proof.
  intros He.
  transitivity (Csum (map (fun _ => C0) (seq s n))); [|apply Csum_map_zero].
  f_equal. apply map_ext_in. intros e' He'. apply in_seq in He'.
  assert (Hne : (e =? e')%nat = false) by (apply Nat.eqb_neq; lia).
  rewrite Hne. unfold Cmul, C0, Re, Im. simpl. f_equal; ring.
Qed.

Lemma Csum_delta (F : nat -> C) (e n : nat) :
  forall s, (s <= e < s + n)%nat ->
  Csum (map (fun e' => Cmul (F e') (if (e =? e')%nat then C1 else C0))
            (seq s n)) = F e.
Proof.
  induction n as [|n IH]; intros s Hs; [lia|].
  cbn [seq map Csum fold_right].
  fold (Csum (map (fun e' => Cmul (F e') (if (e =? e')%nat then C1 else C0))
                  (seq (S s) n))).
  destruct (Nat.eq_dec e s) as [->|Hne].
  - rewrite Nat.eqb_refl, Csum_delta_above by lia.
    destruct (F s) as [a b]. unfold Cmul, Cadd, C0, C1, Re, Im. simpl.
    f_equal; ring.
  - assert (Hneb : (e =? s)%nat = false) by now apply Nat.eqb_neq.
    rewrite Hneb, IH by lia.
    destruct (F e) as [a b]. unfold Cmul, Cadd, C0, Re, Im. simpl.
    f_equal; ring.
Qed.

Lemma list_as_map_nth {X : Type} (l : list X) (d : X) :
  l = map (fun i => nth i l d) (seq 0 (length l)).
Proof.
  induction l as [|a l IH]; [reflexivity|].
  cbn [length seq map nth]. f_equal.
  rewrite <- seq_shift, map_map. exact IH.
Qed.

Lemma zip_with_index {X Y Z : Type} (f : X -> Y -> Z) (l : list X)
    (l' : list Y) (n : nat) (dx : X) (dy : Y) :
  length l = n -> length l' = n ->
  zip_with f l l' = map (fun i => f (nth i l dx) (nth i l' dy)) (seq 0 n).
Proof.
  intros Hl Hl'. rewrite <- zip_with_map_same.
  f_equal; [rewrite <- Hl | rewrite <- Hl']; apply list_as_map_nth.
Qed.

(** The columns of the codebook are orthonormal, as its rows are. *)
Lemma DFT_norm_columns (N e e' : nat) :
  (e < N)%nat -> (e' < N)%nat ->
  Csum (map (fun c =>
               Cmul (Cdivr (Cexp_mj (INR (e * c) * (2 * PI / INR N)))
                           (sqrt (INR N)))
                    (Cconj (Cdivr (Cexp_mj (INR (e' * c) * (2 * PI / INR N)))
                                  (sqrt (INR N)))))
            (seq 0 N))
  = if (e =? e')%nat then C1 else C0.
Proof.
  intros He He'.
  assert (HN : 0 < INR N) by (apply lt_0_INR; lia).
  rewrite (map_ext _ (fun c =>
             Cscale (/ INR N)
               (Cpow (Cexp_mj ((INR e - INR e') * (2 * PI / INR N))) c))).
  2:{ intros c. rewrite entry_product by lia. rewrite Cpow_exp, !mult_INR.
      do 2 f_equal. ring. }
  rewrite Csum_scaled.
  destruct (Nat.eqb_spec e e') as [->|Hne].
  - rewrite (map_ext _ (fun _ => C1)).
    + assert (Hones : forall l : list nat,
                 Csum (map (fun _ => C1) l) = (INR (length l), 0)).
      { induction l as [|i l IH]; [reflexivity|].
        cbn [map Csum fold_right length]. fold (Csum (map (fun _ => C1) l)).
        rewrite IH, S_INR. unfold Cadd, C1, Re, Im. simpl. f_equal; ring. }
      rewrite Hones, length_seq. unfold Cscale, C1, Re, Im. simpl.
      f_equal; field; lra.
    + intros i. rewrite Cpow_exp, Rminus_diag, Rmult_0_l, Rmult_0_r.
      unfold Cexp_mj, C1. now rewrite cos_0, sin_0, Ropp_0.
  - pose proof (geometric_sum
                  (Cexp_mj ((INR e - INR e') * (2 * PI / INR N))) N) as Hgeo.
    rewrite full_turns in Hgeo by lia.
    replace (Cadd C1 (-1, 0)) with C0 in Hgeo
      by (unfold Cadd, C1, C0, Re, Im; simpl; f_equal; ring).
    apply Cmul_zero_r in Hgeo.
    + rewrite Hgeo. unfold Cscale, C0, Re, Im. simpl. f_equal; ring.
    + pose proof (off_turn N e e' He He' Hne) as Hcos.
      unfold Cadd, Cexp_mj, Re. simpl. lra.
Qed.

(** The equivalent channel of one user under configuration [c] of the DFT
    codebook, as a sum over the elements. *)
Lemma h_eq_cb_row (N : nat) (g_rb h_u : list C) :
  length g_rb = N -> length h_u = N ->
  map (fun conf =>
         Csum (zip_with Cmul (zip_with Cmul (map Cconj g_rb) conf) h_u))
      (DFT_norm N)
  = map (fun c =>
           Csum (map (fun e =>
                        Cmul (Cmul (Cconj (nth e g_rb C0)) (nth e h_u C0))
                             (Cdivr (Cexp_mj (INR (e * c) * (2 * PI / INR N)))
                                    (sqrt (INR N))))
                     (seq 0 N)))
        (seq 0 N).
Proof.
  intros Hg Hh. unfold DFT_norm. rewrite DFT_closed, !map_map.
  apply map_ext. intros c.
  rewrite (list_as_map_nth g_rb C0) at 1. rewrite (list_as_map_nth h_u C0) at 1.
  rewrite Hg, Hh, !map_map.
  rewrite zip_with_map_same, zip_with_map_same. f_equal.
  apply map_ext. intros e. unfold fundamental_freq. rewrite Cpow_exp.
  unfold Cmul, Cconj, Cdivr, Cexp_mj, Re, Im. simpl. f_equal; ring.
Qed.

Lemma Re_mul_conj (z : C) : Re (Cmul z (Cconj z)) = Cabs z ^ 2.
Proof. rewrite Cabs_pow2. unfold Cmul, Cconj, Re, Im. simpl. ring. Qed.

Lemma Cabs_Cconj (z : C) : Cabs (Cconj z) = Cabs z.
Proof.
  unfold Cabs, Cconj, Re, Im. simpl. f_equal. ring.
Qed.

Lemma Cmul_conj_pairs (x y w v : C) :
  Cmul (Cmul x w) (Cconj (Cmul y v))
  = Cmul (Cmul x (Cconj y)) (Cmul w (Cconj v)).
Proof.
  destruct x, y, w, v. unfold Cmul, Cconj, Re, Im. simpl. f_equal; ring.
Qed.

(** The codebook conserves power: the squared moduli of the sums
    [sum_e b_e W_ce], added over the configurations [c], give the squared
    moduli of the [b_e] added over the elements. *)
Lemma codebook_power (N : nat) (b : nat -> C) :
  Csum (map (fun c =>
               Cmul (Csum (map (fun e =>
                                  Cmul (b e)
                                    (Cdivr (Cexp_mj (INR (e * c)
                                                     * (2 * PI / INR N)))
                                           (sqrt (INR N))))
                               (seq 0 N)))
                    (Cconj
                       (Csum (map (fun e =>
                                     Cmul (b e)
                                       (Cdivr (Cexp_mj (INR (e * c)
                                                        * (2 * PI / INR N)))
                                              (sqrt (INR N))))
                                  (seq 0 N)))))
            (seq 0 N))
  = Csum (map (fun e => Cmul (b e) (Cconj (b e))) (seq 0 N)).
Proof.
  set (W := fun c e : nat =>
              Cdivr (Cexp_mj (INR (e * c) * (2 * PI / INR N))) (sqrt (INR N))).
  set (term := fun (c e e' : nat) =>
                 Cmul (Cmul (b e) (Cconj (b e')))
                      (Cmul (W c e) (Cconj (W c e')))).
  transitivity
    (Csum (map (fun c =>
                  Csum (map (fun e => Csum (map (term c e) (seq 0 N)))
                            (seq 0 N)))
               (seq 0 N))).
  { f_equal. apply map_ext. intros c.
    rewrite <- Csum_map_conj, <- Csum_map_mul_r. f_equal.
    apply map_ext. intros e. rewrite <- Csum_map_mul_l. f_equal.
    apply map_ext. intros e'. unfold term. apply Cmul_conj_pairs. }
  rewrite Csum_swap. f_equal. apply map_ext_in. intros e He.
  apply in_seq in He. rewrite Csum_swap.
  rewrite <- (Csum_delta (fun e' => Cmul (b e) (Cconj (b e'))) e N 0) by lia.
  f_equal. apply map_ext_in. intros e' He'. apply in_seq in He'.
  unfold term. rewrite Csum_map_mul_l. f_equal.
  unfold W. apply DFT_norm_columns; lia.
Qed.

(** X18: the DFT codebook spreads the power of the cascaded channel over its
    configurations without loss: for every user, the squared moduli of the
    equivalent channel added over the configurations equal the products
    [|g_e|^2 |h_e|^2] added over the elements, and the signal powers of the
    user add up to [tx_power] times that. *)
Theorem h_eq_cb_power (tx : R) (N : nat) (g_rb : list C)
    (h_ur : list (list C)) (u : nat) :
  length g_rb = N ->
  (u < length h_ur)%nat ->
  length (nth u h_ur []) = N ->
  norm2 (nth u (h_eq_cb g_rb (DFT_norm N) h_ur) [])
  = fold_right Rplus 0
      (zip_with (fun g h => Cabs g ^ 2 * Cabs h ^ 2) g_rb (nth u h_ur []))
  /\ fold_right Rplus 0
       (nth u (ScriptMain.sig_pow_cb tx (h_eq_cb g_rb (DFT_norm N) h_ur)) [])
     = tx * fold_right Rplus 0
              (zip_with (fun g h => Cabs g ^ 2 * Cabs h ^ 2) g_rb
                        (nth u h_ur [])).
Proof.
  intros Hg Hu Hh.
  set (h_u := nth u h_ur []) in *.
  assert (Hrow : nth u (h_eq_cb g_rb (DFT_norm N) h_ur) []
                 = map (fun c =>
                          Csum (map (fun e =>
                                       Cmul (Cmul (Cconj (nth e g_rb C0))
                                                  (nth e h_u C0))
                                            (Cdivr
                                               (Cexp_mj (INR (e * c)
                                                         * (2 * PI / INR N)))
                                               (sqrt (INR N))))
                                    (seq 0 N)))
                       (seq 0 N)).
  { unfold h_eq_cb. rewrite (nth_map_in_range _ h_ur u [] []) by exact Hu.
    fold h_u. now apply h_eq_cb_row. }
  assert (Hpow : norm2 (nth u (h_eq_cb g_rb (DFT_norm N) h_ur) [])
                 = fold_right Rplus 0
                     (zip_with (fun g h => Cabs g ^ 2 * Cabs h ^ 2) g_rb h_u)).
  { rewrite Hrow. unfold norm2. rewrite map_map.
    rewrite (map_ext _ (fun c => Re (Cmul _ (Cconj _))))
      by (intros c; symmetry; apply Re_mul_conj).
    rewrite <- (Re_Csum (fun c => Cmul _ (Cconj _))).
    rewrite (codebook_power N
               (fun e => Cmul (Cconj (nth e g_rb C0)) (nth e h_u C0))).
    rewrite Re_Csum. f_equal.
    rewrite (zip_with_index _ g_rb h_u N C0 C0 Hg Hh).
    apply map_ext. intros e.
    now rewrite Re_mul_conj, Cabs_Cmul, Cabs_Cconj, Rpow_mult_distr. }
  split; [exact Hpow|].
  unfold ScriptMain.sig_pow_cb.
  assert (Hlen : (u < length (h_eq_cb g_rb (DFT_norm N) h_ur))%nat)
    by (unfold h_eq_cb; now rewrite length_map).
  rewrite (nth_map_in_range _ _ u [] []) by exact Hlen.
  rewrite <- (map_map (fun h => Cabs h ^ 2) (fun v => tx * v)).
  rewrite sum_scaled. f_equal. exact Hpow.
Qed.

Lemma h_eq_cb_power_witness :
  norm2 (nth 0 (h_eq_cb [(1, 0); (0, 1)] (DFT_norm 2)
                        [[(2, 0); (1, 1)]]) [])
  = fold_right Rplus 0
      (zip_with (fun g h => Cabs g ^ 2 * Cabs h ^ 2) [(1, 0); (0, 1)]
                (nth 0 [[(2, 0); (1, 1)]] []))
  /\ fold_right Rplus 0
       (nth 0 (ScriptMain.sig_pow_cb 100
                 (h_eq_cb [(1, 0); (0, 1)] (DFT_norm 2) [[(2, 0); (1, 1)]]))
            [])
     = 100 * fold_right Rplus 0
               (zip_with (fun g h => Cabs g ^ 2 * Cabs h ^ 2)
                         [(1, 0); (0, 1)] (nth 0 [[(2, 0); (1, 1)]] [])).
Proof.
  apply (h_eq_cb_power 100 2 [(1, 0); (0, 1)] [[(2, 0); (1, 1)]] 0).
  - reflexivity.
  - simpl. lia.
  - reflexivity.
Defined.

(** ** The gain of a matched configuration *)

Lemma Csum_ones {X : Type} (l : list X) :
  Csum (map (fun _ => C1) l) = (INR (length l), 0).
Proof.
  induction l as [|i l IH]; [reflexivity|].
  cbn [map Csum fold_right length]. fold (Csum (map (fun _ : X => C1) l)).
  rewrite IH, S_INR. unfold Cadd, C1, Re, Im. simpl. f_equal; ring.
Qed.

Lemma combine_map_self {X Y : Type} (f : X -> Y) (l : list X) :
  combine (map f l) l = map (fun v => (f v, v)) l.
Proof. induction l as [|v l IH]; simpl; [reflexivity | now rewrite IH]. Qed.

(** X10: when every weight of the loaded configuration is the conjugate of the
    phase term the code multiplies it with at a point off the origin, that is
    when the configuration is matched to the point, the gain
    [compute_afgain] returns for the point is 1, the upper end of its
    range. *)
Theorem compute_afgain_matched (e : RisProtocolEnv) (f : R) (p : vec3) :
  freqs e = [f] ->
  ris_el_pos e <> [] ->
  norm p <> 0 ->
  ris_actual_conf e
  = map (fun q =>
           Cconj (Cexp_mj (2 * PI / speed_of_light
                           * (f * (norm p - dot (vdiv p (norm p)) q)
                              + f * (dist_br e - dot (bs_cartver e) q)))))
        (ris_el_pos e) ->
  compute_afgain e [p] = Ok [1].
Proof.
  intros Hf Hne _ Hconf. unfold compute_afgain.
  rewrite (compute_afgain_batched_closed e [p] batch_size batch_size_pos)
    by discriminate.
  rewrite Hf. cbn [polar map combine fst snd]. do 2 f_equal.
  unfold af_gain_point. cbn [fst snd]. rewrite Hconf.
  rewrite combine_map_self, map_map. cbn [fst snd].
  rewrite (map_ext _ (fun _ => C1)).
  2:{ intros q.
      set (t := 2 * PI / speed_of_light
                * (f * (norm p - dot (vdiv p (norm p)) q)
                   + f * (dist_br e - dot (bs_cartver e) q))).
      pose proof (sin2_cos2 t) as Hsc. unfold Rsqr in Hsc.
      unfold Cmul, Cconj, Cexp_mj, C1, Re, Im. simpl. f_equal; [lra | ring]. }
  rewrite Csum_ones. unfold ris_num_els.
  assert (HN : 0 < INR (length (ris_el_pos e))).
  { apply lt_0_INR. destruct (ris_el_pos e); [congruence | simpl; lia]. }
  unfold Cabs, Cdivr, Re, Im. cbn [fst snd].
  replace (INR (length (ris_el_pos e)) / INR (length (ris_el_pos e))
           * (INR (length (ris_el_pos e)) / INR (length (ris_el_pos e)))
           + 0 / INR (length (ris_el_pos e))
             * (0 / INR (length (ris_el_pos e))))
    with 1 by (field; lra).
  rewrite sqrt_1. ring.
Qed.

Lemma compute_afgain_matched_witness :
  compute_afgain
    (mkEnv (1 / 10) 5 2 20 1 2 2 (1, 0, 0) [3000000000] 2 (1 / 20)
       [(0, 0, 0); (1 / 20, 0, 0)]
       (map (fun q =>
               Cconj (Cexp_mj (2 * PI / speed_of_light
                               * (3000000000
                                  * (norm (0, 3, 4)
                                     - dot (vdiv (0, 3, 4) (norm (0, 3, 4))) q)
                                  + 3000000000 * (20 - dot (1, 0, 0) q)))))
            [(0, 0, 0); (1 / 20, 0, 0)]))
    [(0, 3, 4)]
  = Ok [1].
Proof.
  apply (compute_afgain_matched _ 3000000000 (0, 3, 4)).
  - reflexivity.
  - discriminate.
  - rewrite norm_0_3_4. lra.
  - reflexivity.
Defined.
